(** * Resumable invoice batch processing: a model of [process_invoices.py]

    The development embeds [InvoiceProcessor] (retry loop, result parser,
    progress ledger, CSV result store and the orchestrating loop of
    [process_all]) and proves properties of the embedded code.

    The texts that the program reads (replies of the capability, the
    ledger file, file names) are modelled by [string]: a character is a code
    point below 256.  The strings that [json.loads] builds are lists of code
    points, so that every escape and every surrogate pair has its value;
    the decoder has the limits of CPython 3.11 (4300 digits for an integer,
    the recursion limit for nested containers).  The extraction capability,
    the image decoder, the directory listing and the wall clock are
    external; they are collected in an [environment].  The calls to the
    outside are recorded in the state, in the order in which they happen. *)

From Stdlib Require Import String Ascii List Bool Arith NArith ZArith QArith Lia.
Import ListNotations.

Set Warnings "-register-all".

Local Open Scope list_scope.
Local Open Scope string_scope.
Local Open Scope nat_scope.

(** ** Python [str] methods used by the source *)

Module PyStr.

Definition dquote : ascii := Eval compute in ascii_of_nat 34.
Definition backslash : ascii := Eval compute in ascii_of_nat 92.

(** [str.isspace] on one character, restricted to code points below 256. *)
Definition is_space (c : ascii) : bool :=
  let n := nat_of_ascii c in
  ((9 <=? n) && (n <=? 13)) || ((28 <=? n) && (n <=? 32))
  || (n =? 133) || (n =? 160).

Fixpoint lstrip (s : string) : string :=
  match s with
  | EmptyString => EmptyString
  | String c r => if is_space c then lstrip r else s
  end.

Fixpoint rstrip (s : string) : string :=
  match s with
  | EmptyString => EmptyString
  | String c r =>
      match rstrip r with
      | EmptyString => if is_space c then EmptyString else String c EmptyString
      | r' => String c r'
      end
  end.

(** [s.strip()] *)
Definition strip (s : string) : string := rstrip (lstrip s).

(** [s.startswith(p)] *)
Definition startswith (p s : string) : bool := prefix p s.

(** [s.replace(old, new)] for a non-empty [old]: occurrences are found from
    the left and do not overlap.  [skip] counts the characters of a matched
    occurrence that are still to be dropped. *)
Fixpoint replace_from (old new : string) (skip : nat) (s : string) : string :=
  match s with
  | EmptyString => EmptyString
  | String c r =>
      match skip with
      | S k => replace_from old new k r
      | O =>
          if prefix old s
          then new ++ replace_from old new (pred (String.length old)) r
          else String c (replace_from old new 0 r)
      end
  end.

Definition replace (old new s : string) : string := replace_from old new 0 s.

(** [s[:n]] *)
Definition slice_to (n : nat) (s : string) : string := substring 0 n s.

(** [s.lower()] on the ASCII letters. *)
Definition lower_char (c : ascii) : ascii :=
  let n := nat_of_ascii c in
  if (65 <=? n) && (n <=? 90) then ascii_of_nat (n + 32) else c.

Fixpoint lower (s : string) : string :=
  match s with
  | EmptyString => EmptyString
  | String c r => String (lower_char c) (lower r)
  end.

(** [sep.join(parts)] *)
Definition join (sep : string) (parts : list string) : string :=
  String.concat sep parts.

(** [s.rfind(".")]: index of the last dot, if any. *)
Fixpoint rfind_dot (s : string) : option nat :=
  match s with
  | EmptyString => None
  | String c r =>
      match rfind_dot r with
      | Some i => Some (S i)
      | None => if Ascii.eqb c "."%char then Some 0 else None
      end
  end.

End PyStr.

(** ** The [json] module: values, decoder and encoder *)

Module Json.
Import PyStr.

(** A [str] that the decoder builds, as the list of its code points: an
    escape [\uXXXX] may stand for any code point, whatever the text around
    it.  [codes] embeds the texts of the model, whose code points are below
    256. *)
Definition pystr : Type := list N.

Fixpoint codes (s : string) : pystr :=
  match s with
  | EmptyString => []
  | String c r => N_of_ascii c :: codes r
  end.

Coercion codes : string >-> pystr.

(** [a == b] on two [str]. *)
Fixpoint str_eqb (a b : pystr) : bool :=
  match a, b with
  | [], [] => true
  | x :: a', y :: b' => (x =? y)%N && str_eqb a' b'
  | _, _ => false
  end.

(** [sep.join(parts)] on a list of [str]. *)
Definition str_join (sep : pystr) (parts : list pystr) : pystr :=
  match parts with
  | [] => []
  | x :: rest => (x ++ flat_map (fun y => sep ++ y) rest)%list
  end.

Inductive value : Type :=
| JNull
| JBool (b : bool)
| JNumber (literal : string)
| JString (s : pystr)
| JArray (items : list value)
| JObject (members : list (pystr * value)).

(** A Python [dict] with [str] keys: insertion ordered, keys unique. *)
Definition dict := list (pystr * value).

Fixpoint dict_get (k : pystr) (d : dict) : option value :=
  match d with
  | [] => None
  | (k', v) :: d' => if str_eqb k k' then Some v else dict_get k d'
  end.

(** [d[k] = v]: an existing key keeps its position. *)
Fixpoint dict_set (k : pystr) (v : value) (d : dict) : dict :=
  match d with
  | [] => [(k, v)]
  | (k', v') :: d' =>
      if str_eqb k k' then (k, v) :: d' else (k', v') :: dict_set k v d'
  end.

Definition dict_keys (d : dict) : list pystr := map fst d.

(** [dict(pairs)] *)
Definition dict_of_pairs (pairs : list (pystr * value)) : dict :=
  fold_left (fun d kv => dict_set (fst kv) (snd kv) d) pairs [].

(** *** Decoder *)

(** The exceptions of [json.loads]: [JSONDecodeError] for a text that is no
    JSON document, [ValueError] from [int] for an integer literal with more
    digits than [sys.get_int_max_str_digits()], and [RecursionError] for
    arrays and objects nested deeper than the recursion limit allows. *)
Inductive failure : Type :=
| Malformed
| IntTooLong
| TooDeep.

(** What a scanner gives: a value and the text behind it, or a failure. *)
Inductive parsed (A : Type) : Type :=
| Ok (a : A) (rest : string)
| Fail (f : failure).
Arguments Ok {A} a rest.
Arguments Fail {A} f.

Definition is_ws (c : ascii) : bool :=
  Ascii.eqb c " "%char || (nat_of_ascii c =? 9) || (nat_of_ascii c =? 10)
  || (nat_of_ascii c =? 13).

Fixpoint skip_ws (s : string) : string :=
  match s with
  | EmptyString => EmptyString
  | String c r => if is_ws c then skip_ws r else s
  end.

Definition is_digit (c : ascii) : bool :=
  let n := nat_of_ascii c in (48 <=? n) && (n <=? 57).

Definition hex_value (c : ascii) : option nat :=
  let n := nat_of_ascii c in
  if (48 <=? n) && (n <=? 57) then Some (n - 48)
  else if (97 <=? n) && (n <=? 102) then Some (n - 87)
  else if (65 <=? n) && (n <=? 70) then Some (n - 55)
  else None.

(** The four hexadecimal digits of an escape [\uXXXX]. *)
Definition decode_u (a b c d : ascii) : option N :=
  match hex_value a, hex_value b, hex_value c, hex_value d with
  | Some x, Some y, Some z, Some w =>
      Some (N.of_nat (((x * 16 + y) * 16 + z) * 16 + w))
  | _, _, _, _ => None
  end.

(** Code points from U+D800 to U+DBFF, and from U+DC00 to U+DFFF. *)
Definition is_high_surrogate (u : N) : bool :=
  ((55296 <=? u) && (u <=? 56319))%N.

Definition is_low_surrogate (u : N) : bool :=
  ((56320 <=? u) && (u <=? 57343))%N.

Definition join_surrogates (high low : N) : N :=
  (65536 + ((high - 55296) * 1024 + (low - 56320)))%N.

Definition unescape (e : ascii) : option N :=
  if Ascii.eqb e dquote then Some 34%N
  else if Ascii.eqb e backslash then Some 92%N
  else if Ascii.eqb e "/"%char then Some 47%N
  else if Ascii.eqb e "b"%char then Some 8%N
  else if Ascii.eqb e "f"%char then Some 12%N
  else if Ascii.eqb e "n"%char then Some 10%N
  else if Ascii.eqb e "r"%char then Some 13%N
  else if Ascii.eqb e "t"%char then Some 9%N
  else None.

Definition push (c : N) (r : option (pystr * string))
  : option (pystr * string) :=
  match r with
  | Some (x, rest) => Some (c :: x, rest)
  | None => None
  end.

(** What follows an escaped high surrogate [u]: when the text goes on with
    an escaped low surrogate, the two make one code point, and otherwise [u]
    stays on its own.  [scan] scans the rest of the string. *)
Definition after_high_surrogate (scan : string -> option (pystr * string))
    (u : N) (r : string) : option (pystr * string) :=
  match r with
  | String b r1 =>
      if Ascii.eqb b backslash then
        match r1 with
        | String e r2 =>
            if Ascii.eqb e "u"%char then
              match r2 with
              | String k1 (String k2 (String k3 (String k4 r'))) =>
                  match decode_u k1 k2 k3 k4 with
                  | Some l =>
                      if is_low_surrogate l
                      then push (join_surrogates u l) (scan r')
                      else push u (scan r)
                  | None => None
                  end
              | _ => push u (scan r)
              end
            else push u (scan r)
        | EmptyString => push u (scan r)
        end
      else push u (scan r)
  | EmptyString => push u (scan r)
  end.

(** [scanstring] in strict mode, started right after the opening quote. *)
Fixpoint scan_string (s : string) : option (pystr * string) :=
  match s with
  | EmptyString => None
  | String c r =>
      if Ascii.eqb c dquote then Some ([], r)
      else if Ascii.eqb c backslash then
        match r with
        | String e r1 =>
            if Ascii.eqb e "u"%char then
              match r1 with
              | String h1 (String h2 (String h3 (String h4 r2))) =>
                  match decode_u h1 h2 h3 h4 with
                  | Some u =>
                      if is_high_surrogate u
                      then after_high_surrogate scan_string u r2
                      else push u (scan_string r2)
                  | None => None
                  end
              | _ => None
              end
            else
              match unescape e with
              | Some x => push x (scan_string r1)
              | None => None
              end
        | EmptyString => None
        end
      else if nat_of_ascii c <? 32 then None
      else push (N_of_ascii c) (scan_string r)
  end.

Fixpoint span_digits (s : string) : string * string :=
  match s with
  | String c r =>
      if is_digit c then let (ds, r') := span_digits r in (String c ds, r')
      else (EmptyString, s)
  | EmptyString => (EmptyString, EmptyString)
  end.

(** The optional fraction (a dot and digits) and the optional exponent (e or
    E, an optional sign and digits) of a number. *)
Definition scan_fraction (s : string) : string * string :=
  match s with
  | String "." r =>
      match span_digits r with
      | (EmptyString, _) => (EmptyString, s)
      | (ds, r') => (String "." ds, r')
      end
  | _ => (EmptyString, s)
  end.

Definition scan_exponent (s : string) : string * string :=
  match s with
  | String e r =>
      if Ascii.eqb e "e"%char || Ascii.eqb e "E"%char then
        let (sign, r1) :=
          match r with
          | String g r' =>
              if Ascii.eqb g "+"%char || Ascii.eqb g "-"%char
              then (String g EmptyString, r') else (EmptyString, r)
          | EmptyString => (EmptyString, r)
          end in
        match span_digits r1 with
        | (EmptyString, _) => (EmptyString, s)
        | (ds, r') => (String e (sign ++ ds), r')
        end
      else (EmptyString, s)
  | EmptyString => (EmptyString, s)
  end.

(** [sys.get_int_max_str_digits()], by default. *)
Definition int_max_str_digits : N := 4300.

(** A number without fraction and exponent is converted by [int], which
    refuses more than [int_max_str_digits] digits; any other number is
    converted by [float], which takes any length. *)
Definition int_too_long (int_part frac expo : string) : bool :=
  match frac, expo with
  | EmptyString, EmptyString =>
      (int_max_str_digits <? N.of_nat (String.length int_part))%N
  | _, _ => false
  end.

(** [NUMBER_RE]: an optional minus sign, then a single zero or a digit from
    1 to 9 followed by digits, then an optional fraction and an optional
    exponent; the number is kept as its literal text. *)
Definition scan_number (s : string) : parsed string :=
  let (sign, s1) :=
    match s with
    | String "-" r => ("-", r)
    | _ => (EmptyString, s)
    end in
  match s1 with
  | String c r =>
      if is_digit c then
        let (int_part, r1) :=
          if Ascii.eqb c "0"%char then (String c EmptyString, r)
          else let (ds, r') := span_digits r in (String c ds, r') in
        let (frac, r2) := scan_fraction r1 in
        let (expo, r3) := scan_exponent r2 in
        if int_too_long int_part frac expo then Fail IntTooLong
        else Ok (sign ++ int_part ++ frac ++ expo) r3
      else Fail Malformed
  | EmptyString => Fail Malformed
  end.

Definition scan_literal (lit : string) (v : value) (s : string)
  : parsed value :=
  if prefix lit s
  then Ok v (substring (String.length lit)
                       (String.length s - String.length lit) s)
  else Fail Malformed.

Definition scan_atom (s : string) : parsed value :=
  match s with
  | String "n" _ => scan_literal "null" JNull s
  | String "t" _ => scan_literal "true" (JBool true) s
  | String "f" _ => scan_literal "false" (JBool false) s
  | String "N" _ => scan_literal "NaN" (JNumber "NaN") s
  | String "I" _ => scan_literal "Infinity" (JNumber "Infinity") s
  | _ =>
      match scan_number s with
      | Ok lit r => Ok (JNumber lit) r
      | Fail Malformed => scan_literal "-Infinity" (JNumber "-Infinity") s
      | Fail f => Fail f
      end
  end.

(** [expect c s]: the rest of [s] when [s] starts with [c]. *)
Definition expect (c : ascii) (s : string) : option string :=
  match s with
  | String c' r => if Ascii.eqb c c' then Some r else None
  | EmptyString => None
  end.

(** [scan_once], [JSONArray] and [JSONObject] of the C scanner.  [depth] is
    the number of nested arrays and objects that the recursion limit still
    allows: the scanner enters every array and every object, also an empty
    one, through a guarded recursive call.  Every call consumes input, so
    [fuel] above twice the length of the text is never exhausted. *)
Fixpoint parse_value (fuel : nat) (depth : N) (s : string) {struct fuel}
  : parsed value :=
  match fuel with
  | O => Fail Malformed
  | S fuel' =>
      match expect dquote s with
      | Some r =>
          match scan_string r with
          | Some (x, r') => Ok (JString x) r'
          | None => Fail Malformed
          end
      | None =>
      match expect "{" s with
      | Some r =>
          if (depth =? 0)%N then Fail TooDeep else
          match expect "}" (skip_ws r) with
          | Some r' => Ok (JObject []) r'
          | None =>
              match expect dquote (skip_ws r) with
              | Some r' =>
                  match parse_members fuel' (N.pred depth) r' with
                  | Ok pairs r'' => Ok (JObject (dict_of_pairs pairs)) r''
                  | Fail f => Fail f
                  end
              | None => Fail Malformed
              end
          end
      | None =>
      match expect "[" s with
      | Some r =>
          if (depth =? 0)%N then Fail TooDeep else
          match expect "]" (skip_ws r) with
          | Some r' => Ok (JArray []) r'
          | None =>
              match parse_elements fuel' (N.pred depth) (skip_ws r) with
              | Ok items r' => Ok (JArray items) r'
              | Fail f => Fail f
              end
          end
      | None => scan_atom s
      end end end
  end
with parse_elements (fuel : nat) (depth : N) (s : string) {struct fuel}
  : parsed (list value) :=
  match fuel with
  | O => Fail Malformed
  | S fuel' =>
      match parse_value fuel' depth s with
      | Ok v r =>
          match expect "]" (skip_ws r) with
          | Some r' => Ok [v] r'
          | None =>
              match expect "," (skip_ws r) with
              | Some r' =>
                  match parse_elements fuel' depth (skip_ws r') with
                  | Ok vs r'' => Ok (v :: vs) r''
                  | Fail f => Fail f
                  end
              | None => Fail Malformed
              end
          end
      | Fail f => Fail f
      end
  end
with parse_members (fuel : nat) (depth : N) (s : string) {struct fuel}
  : parsed (list (pystr * value)) :=
  match fuel with
  | O => Fail Malformed
  | S fuel' =>
      match scan_string s with
      | Some (key, r) =>
          match expect ":" (skip_ws r) with
          | Some r1 =>
              match parse_value fuel' depth (skip_ws r1) with
              | Ok v r2 =>
                  match expect "}" (skip_ws r2) with
                  | Some r3 => Ok [(key, v)] r3
                  | None =>
                      match expect "," (skip_ws r2) with
                      | Some r3 =>
                          match expect dquote (skip_ws r3) with
                          | Some r4 =>
                              match parse_members fuel' depth r4 with
                              | Ok kvs r5 => Ok ((key, v) :: kvs) r5
                              | Fail f => Fail f
                              end
                          | None => Fail Malformed
                          end
                      | None => Fail Malformed
                      end
                  end
              | Fail f => Fail f
              end
          | None => Fail Malformed
          end
      | None => Fail Malformed
      end
  end.

(** What [json.loads] does: it returns the decoded value or raises. *)
Inductive decoded : Type :=
| Decoded (v : value)
| Raises (f : failure).

(** [json.loads(s)], called where the recursion limit leaves room for
    [depth] nested arrays and objects. *)
Definition loads (depth : N) (s : string) : decoded :=
  match parse_value (2 * String.length s + 2) depth (skip_ws s) with
  | Ok v r =>
      match skip_ws r with
      | EmptyString => Decoded v
      | _ => Raises Malformed
      end
  | Fail f => Raises f
  end.

(** *** Encoder, as called with [indent=2] and the default [ensure_ascii] *)

Definition hex_digit (n : N) : ascii :=
  if (n <? 10)%N then ascii_of_N (48 + n) else ascii_of_N (87 + n).

(** The escape [\uXXXX] of a code unit. *)
Definition u_escape (n : N) : string :=
  String backslash
    (String "u"
       (String (hex_digit ((n / 4096) mod 16))
          (String (hex_digit ((n / 256) mod 16))
             (String (hex_digit ((n / 16) mod 16))
                (String (hex_digit (n mod 16)) EmptyString))))).

(** [ESCAPE_DCT] and the [\uXXXX] forms of [encode_basestring_ascii]: one
    escape for a code point below U+10000, a surrogate pair from there
    on. *)
Definition escape_char (n : N) : string :=
  if (n =? 34)%N then String backslash (String dquote EmptyString)
  else if (n =? 92)%N then String backslash (String backslash EmptyString)
  else if (n =? 10)%N then String backslash "n"
  else if (n =? 13)%N then String backslash "r"
  else if (n =? 9)%N then String backslash "t"
  else if (n =? 12)%N then String backslash "f"
  else if (n =? 8)%N then String backslash "b"
  else if ((n <? 32) || (126 <? n))%N then
    if (n <? 65536)%N then u_escape n
    else u_escape (55296 + (n - 65536) / 1024)
         ++ u_escape (56320 + (n - 65536) mod 1024)
  else String (ascii_of_N n) EmptyString.

Fixpoint escape (s : pystr) : string :=
  match s with
  | [] => EmptyString
  | c :: r => escape_char c ++ escape r
  end.

Definition encode_string (s : pystr) : string :=
  String dquote (escape s ++ String dquote EmptyString).

Fixpoint spaces (n : nat) : string :=
  match n with
  | O => EmptyString
  | S n' => String " " (spaces n')
  end.

Definition newline_indent (level : nat) : string :=
  String (ascii_of_nat 10) (spaces (2 * level)).

Fixpoint encode (level : nat) (v : value) {struct v} : string :=
  match v with
  | JNull => "null"
  | JBool true => "true"
  | JBool false => "false"
  | JNumber literal => literal
  | JString x => encode_string x
  | JArray [] => "[]"
  | JArray items =>
      "[" ++ newline_indent (S level)
      ++ join ("," ++ newline_indent (S level)) (map (encode (S level)) items)
      ++ newline_indent level ++ "]"
  | JObject [] => "{}"
  | JObject members =>
      "{" ++ newline_indent (S level)
      ++ join ("," ++ newline_indent (S level))
           (map (fun kv => encode_string (fst kv) ++ ": "
                           ++ encode (S level) (snd kv)) members)
      ++ newline_indent level ++ "}"
  end.

(** [json.dumps(v, indent=2)], the text that [json.dump(v, f, indent=2)]
    writes to [f]. *)
Definition dumps (v : value) : string := encode 0 v.

(** *** Strings that the codec reads back *)

(** The text starts with the escape of a low surrogate. *)
Definition low_escape (s : string) : bool :=
  match s with
  | String b (String e (String k1 (String k2 (String k3 (String k4 _))))) =>
      Ascii.eqb b backslash && Ascii.eqb e "u"%char
      && match decode_u k1 k2 k3 k4 with
         | Some l => is_low_surrogate l
         | None => false
         end
  | _ => false
  end.

(** The first code point of a [str] is a low surrogate. *)
Definition starts_low (x : pystr) : bool :=
  match x with
  | l :: _ => is_low_surrogate l
  | [] => false
  end.

(** A [str] in which no code point lies beyond U+10FFFF and no high
    surrogate stands directly before a low one.  The decoder builds such
    strings only, and these are the strings that it reads back from the
    text that the encoder writes for them. *)
Fixpoint sound (x : pystr) : bool :=
  match x with
  | [] => true
  | n :: r =>
      (n <? 1114112)%N && negb (is_high_surrogate n && starts_low r)
      && sound r
  end.

(** [sound] on every string of a value, keys apart. *)
Fixpoint sound_value (v : value) : bool :=
  match v with
  | JString x => sound x
  | JArray items => forallb sound_value items
  | JObject members => forallb (fun kv => sound_value (snd kv)) members
  | _ => true
  end.

End Json.

(** ** The processor *)

Module Invoice.
Import PyStr Json.

(** Exceptions that the modelled code raises or catches.  [JSONDecodeError]
    carries its [doc] attribute, the text that failed to decode. *)
Inductive exn : Type :=
| ResourceExhausted (retry_delay : option nat)
| JSONDecodeError (doc : string)
| TypeError
| ValueError
| AttributeError
| RecursionError
| OSError
| ApiError.

(** What one invocation of the extraction capability does: it answers with
    [response.text], signals quota exhaustion (with [retry_delay.seconds]
    when the exception carries a true [retry_delay] that has this attribute;
    the number of seconds is not negative), or fails with some other
    exception, one that is not a JSON decoding error. *)
Inductive reply : Type :=
| Reply (text : string)
| QuotaExceeded (retry_delay : option nat)
| Failed.

Record dir_entry : Type := { name : string; is_file : bool }.

(** The external collaborators.  [generate_content k image] is the reply to
    the invocation number [k] (counted from 0 over the life of the output
    folder) made for [image]. *)
Record environment : Type := {
  iterdir : list dir_entry;
  image_open : string -> bool;
  generate_content : nat -> string -> reply;
  now_isoformat : nat -> string
}.

Inductive csv_row : Type :=
| HeaderRow (fields : list pystr)
| DataRow (cells : list value).

Inductive sleep_call : Type :=
| Backoff (seconds : nat)
| RateLimit (seconds : Q).

(** Warnings and errors sent to the logger (informational lines are left
    out). *)
Inductive log_record : Type :=
| QuotaRetry (delay attempt : nat)
| QuotaGiveUp (image : string)
| JsonParsingError (image : string)
| ResponsePrefix (text : string)
| ProcessingError (image : string)
| NoImageFiles
| NoResultsToSave.

(** A call to the outside: an invocation of the extraction capability, a
    call of [time.sleep], or a write of the ledger by [save_progress]. *)
Inductive event : Type :=
| Invocation (image : string)
| Sleep (s : sleep_call)
| LedgerSave.

(** Attributes of the processor, the two files it owns in the output folder
    and the trace of its calls to the outside, in chronological order: the
    invocations, the sleeps, and in [timeline] the two in one sequence
    together with the writes of the ledger. *)
Record state : Type := {
  processed_count : nat;
  failed_count : nat;
  results : list dict;
  progress_file : option string;
  output_csv : option (list csv_row);
  api_calls : list string;
  sleeps : list sleep_call;
  log : list log_record;
  ticks : nat;
  timeline : list event
}.

Definition with_processed_count (n : nat) (st : state) : state :=
  {| processed_count := n; failed_count := failed_count st;
     results := results st; progress_file := progress_file st;
     output_csv := output_csv st; api_calls := api_calls st;
     sleeps := sleeps st; log := log st; ticks := ticks st;
     timeline := timeline st |}.

Definition with_failed_count (n : nat) (st : state) : state :=
  {| processed_count := processed_count st; failed_count := n;
     results := results st; progress_file := progress_file st;
     output_csv := output_csv st; api_calls := api_calls st;
     sleeps := sleeps st; log := log st; ticks := ticks st;
     timeline := timeline st |}.

Definition with_results (r : list dict) (st : state) : state :=
  {| processed_count := processed_count st; failed_count := failed_count st;
     results := r; progress_file := progress_file st;
     output_csv := output_csv st; api_calls := api_calls st;
     sleeps := sleeps st; log := log st; ticks := ticks st;
     timeline := timeline st |}.

Definition with_progress_file (f : option string) (st : state) : state :=
  {| processed_count := processed_count st; failed_count := failed_count st;
     results := results st; progress_file := f;
     output_csv := output_csv st; api_calls := api_calls st;
     sleeps := sleeps st; log := log st; ticks := ticks st;
     timeline := timeline st |}.

Definition with_output_csv (f : option (list csv_row)) (st : state) : state :=
  {| processed_count := processed_count st; failed_count := failed_count st;
     results := results st; progress_file := progress_file st;
     output_csv := f; api_calls := api_calls st;
     sleeps := sleeps st; log := log st; ticks := ticks st;
     timeline := timeline st |}.

Definition with_api_calls (c : list string) (st : state) : state :=
  {| processed_count := processed_count st; failed_count := failed_count st;
     results := results st; progress_file := progress_file st;
     output_csv := output_csv st; api_calls := c;
     sleeps := sleeps st; log := log st; ticks := ticks st;
     timeline := timeline st |}.

Definition with_sleeps (s : list sleep_call) (st : state) : state :=
  {| processed_count := processed_count st; failed_count := failed_count st;
     results := results st; progress_file := progress_file st;
     output_csv := output_csv st; api_calls := api_calls st;
     sleeps := s; log := log st; ticks := ticks st;
     timeline := timeline st |}.

Definition with_log (l : list log_record) (st : state) : state :=
  {| processed_count := processed_count st; failed_count := failed_count st;
     results := results st; progress_file := progress_file st;
     output_csv := output_csv st; api_calls := api_calls st;
     sleeps := sleeps st; log := l; ticks := ticks st;
     timeline := timeline st |}.

Definition with_ticks (n : nat) (st : state) : state :=
  {| processed_count := processed_count st; failed_count := failed_count st;
     results := results st; progress_file := progress_file st;
     output_csv := output_csv st; api_calls := api_calls st;
     sleeps := sleeps st; log := log st; ticks := n;
     timeline := timeline st |}.

Definition with_timeline (t : list event) (st : state) : state :=
  {| processed_count := processed_count st; failed_count := failed_count st;
     results := results st; progress_file := progress_file st;
     output_csv := output_csv st; api_calls := api_calls st;
     sleeps := sleeps st; log := log st; ticks := ticks st;
     timeline := t |}.

(** [InvoiceProcessor.__init__]: a new processor over the files [st] left in
    the output folder. *)
Definition new_processor (st : state) : state :=
  with_results [] (with_failed_count 0 (with_processed_count 0 st)).

(** The state before the first run: no ledger, no result file. *)
Definition initial_state : state :=
  {| processed_count := 0; failed_count := 0; results := [];
     progress_file := None; output_csv := None; api_calls := [];
     sleeps := []; log := []; ticks := 0; timeline := [] |}.

(** *** Computations that change the state and may raise *)

Inductive outcome (A : Type) : Type :=
| Return (a : A)
| Raise (e : exn).
Arguments Return {A} a.
Arguments Raise {A} e.

Definition M (A : Type) : Type := state -> outcome A * state.

Definition ret {A : Type} (a : A) : M A := fun st => (Return a, st).

Definition raise {A : Type} (e : exn) : M A := fun st => (Raise e, st).

Definition bind {A B : Type} (c : M A) (k : A -> M B) : M B :=
  fun st =>
    match c st with
    | (Return a, st') => k a st'
    | (Raise e, st') => (Raise e, st')
    end.

Notation "x <- c ;; k" := (bind c (fun x => k))
  (at level 61, c at next level, right associativity).
Notation "c ;;; k" := (bind c (fun _ => k))
  (at level 61, right associativity).

Definition modify (f : state -> state) : M unit := fun st => (Return tt, f st).

Definition logger (r : log_record) : M unit :=
  modify (fun st => with_log (log st ++ [r]) st).

(** The state after [time.sleep(s)]. *)
Definition slept (s : sleep_call) (st : state) : state :=
  with_timeline (timeline st ++ [Sleep s]) (with_sleeps (sleeps st ++ [s]) st).

Definition time_sleep (s : sleep_call) : M unit := modify (slept s).

(** *** Class constants *)

Definition REQUESTS_PER_MINUTE : Q := 15.
Definition DELAY_BETWEEN_REQUESTS : Q := 60 / REQUESTS_PER_MINUTE.

Definition fieldnames : list pystr :=
  map codes
    ["invoice_file"; "invoice_number"; "date"; "seller"; "client";
     "category"; "confidence"; "items_found"; "reasoning"; "total_amount"].

Definition image_extensions : list string :=
  [".jpg"; ".jpeg"; ".png"; ".gif"; ".bmp"; ".tiff"].

Definition max_retries : nat := 3.

(** The recursion limit is 1000 by default.  When the program runs as a
    script, the frames of the module, of [main], [process_all] and
    [analyze_invoice] and those of [json.loads] leave room for 992 nested
    arrays and objects in a reply; in [load_progress], which calls
    [json.load], for 991 in the ledger (CPython 3.11). *)
Definition reply_depth : N := 992.
Definition ledger_depth : N := 991.

(** *** [analyze_invoice] *)

(** [Image.open(image_path)] *)
Definition open_image (env : environment) (image : string) : M unit :=
  if image_open env image then ret tt else raise OSError.

(** [self.model.generate_content([prompt, image])] followed by
    [response.text]. *)
(** The state after an invocation for [image]. *)
Definition invoked (image : string) (st : state) : state :=
  with_timeline (timeline st ++ [Invocation image])
    (with_api_calls (api_calls st ++ [image]) st).

Definition call_model (env : environment) (image : string) : M string :=
  fun st =>
    let st' := invoked image st in
    match generate_content env (List.length (api_calls st)) image with
    | Reply text => (Return text, st')
    | QuotaExceeded retry_delay => (Raise (ResourceExhausted retry_delay), st')
    | Failed => (Raise ApiError, st')
    end.

(** Removal of the Markdown code fence (lines 174 to 177). *)
Definition strip_code_fences (response_text : string) : string :=
  if startswith "```json" response_text then
    strip (replace "```" EmptyString
             (replace "```json" EmptyString response_text))
  else if startswith "```" response_text then
    strip (replace "```" EmptyString response_text)
  else response_text.

(** The exception that a failure of the decoder is for the program. *)
Definition decoding_error (f : failure) (doc : string) : exn :=
  match f with
  | Malformed => JSONDecodeError doc
  | IntTooLong => ValueError
  | TooDeep => RecursionError
  end.

(** [json.loads(response_text)] *)
Definition json_loads (response_text : string) : M value :=
  match loads reply_depth response_text with
  | Decoded v => ret v
  | Raises f => raise (decoding_error f response_text)
  end.

(** [data['invoice_file'] = image_path.name]: only a dict takes a string
    key. *)
Definition set_invoice_file (image : string) (data : value) : M dict :=
  match data with
  | JObject d => ret (dict_set "invoice_file" (JString image) d)
  | _ => raise TypeError
  end.

(** The body of the [try] statement (lines 159 to 189). *)
Definition attempt (env : environment) (image : string) : M dict :=
  open_image env image ;;;
  text <- call_model env image ;;
  let response_text := strip_code_fences (strip text) in
  data <- json_loads response_text ;;
  set_invoice_file image data.

(** The loop [for attempt in range(max_retries)] with its three handlers;
    [remaining] counts the iterations that are left. *)
Fixpoint attempts (env : environment) (image : string)
    (attempt_no remaining : nat) {struct remaining} : M (option dict) :=
  match remaining with
  | O => ret None
  | S remaining' =>
      fun st =>
        match attempt env image st with
        | (Return data, st') => (Return (Some data), st')
        | (Raise (ResourceExhausted retry_delay), st') =>
            if attempt_no <? max_retries - 1 then
              let delay := match retry_delay with
                           | Some seconds => seconds
                           | None => 60
                           end in
              (logger (QuotaRetry delay (attempt_no + 1)) ;;;
               time_sleep (Backoff delay) ;;;
               attempts env image (S attempt_no) remaining') st'
            else
              (logger (QuotaGiveUp image) ;;; ret None) st'
        | (Raise (JSONDecodeError doc), st') =>
            (logger (JsonParsingError image) ;;;
             logger (ResponsePrefix (slice_to 200 doc)) ;;;
             ret None) st'
        | (Raise _, st') =>
            (logger (ProcessingError image) ;;; ret None) st'
        end
  end.

Definition analyze_invoice (env : environment) (image : string)
  : M (option dict) :=
  attempts env image 0 max_retries.

(** *** The progress ledger *)

(** The dict that [save_progress] serialises. *)
Definition ledger_document (processed_files : list pystr) (stamp : string)
  : value :=
  JObject [(codes "processed", JArray (map JString processed_files));
           (codes "last_updated", JString stamp)].

Fixpoint strings_of (items : list value) : option (list pystr) :=
  match items with
  | [] => Some []
  | JString x :: rest =>
      match strings_of rest with
      | Some xs => Some (x :: xs)
      | None => None
      end
  | _ => None
  end.

(** [load_progress].  The declared return type is [List[str]]; a ledger whose
    [processed] entry is anything else is rejected with [TypeError] here. *)
Definition load_progress : M (list pystr) :=
  fun st =>
    match progress_file st with
    | Some text =>
        match loads ledger_depth text with
        | Raises f => (Raise (decoding_error f text), st)
        | Decoded (JObject progress) =>
            match dict_get "processed" progress with
            | None => (Return [], st)
            | Some (JArray items) =>
                match strings_of items with
                | Some xs => (Return xs, st)
                | None => (Raise TypeError, st)
                end
            | Some _ => (Raise TypeError, st)
            end
        | Decoded _ => (Raise AttributeError, st)
        end
    | None => (Return [], st)
    end.

(** [open(self.progress_file, 'w')] truncates the ledger in place; the text
    is then written into it. *)
Definition open_progress_w (st : state) : state :=
  with_progress_file (Some EmptyString) st.

Definition write_progress (text : string) (st : state) : state :=
  match progress_file st with
  | Some written => with_progress_file (Some (written ++ text)) st
  | None => st
  end.

Definition progress_text (env : environment) (processed_files : list pystr)
    (st : state) : string :=
  dumps (ledger_document processed_files (now_isoformat env (ticks st))).

Definition save_progress (env : environment) (processed_files : list pystr)
  : M unit :=
  fun st =>
    let text := progress_text env processed_files st in
    (Return tt,
     with_timeline (timeline st ++ [LedgerSave])
       (with_ticks (S (ticks st)) (write_progress text (open_progress_w st)))).

(** The output folder when the process dies inside [save_progress] after
    [written] characters of the new text have reached the file. *)
Definition save_progress_interrupted (env : environment)
    (processed_files : list pystr) (written : nat) (st : state) : state :=
  let text := progress_text env processed_files st in
  write_progress (substring 0 written text) (open_progress_w st).

(** *** The result store *)

Definition all_strings (items : list value) : bool :=
  forallb (fun v => match v with JString _ => true | _ => false end) items.

(** The copy of a result with its [items_found] list joined (lines 252 to
    254); [str.join] raises [TypeError] on an item that is not a string. *)
Definition flatten_row (result : dict) : M dict :=
  match dict_get "items_found" result with
  | Some (JArray items) =>
      match strings_of items with
      | Some xs =>
          ret (dict_set "items_found" (JString (str_join ", " xs)) result)
      | None => raise TypeError
      end
  | _ => ret result
  end.

Definition append_row (r : csv_row) : M unit :=
  modify (fun st =>
    with_output_csv (Some (match output_csv st with
                           | Some rows => (rows ++ [r])%list
                           | None => [r]
                           end)) st).

Definition wrong_fields (row : dict) : list pystr :=
  filter (fun k => negb (existsb (str_eqb k) fieldnames)) (dict_keys row).

(** [DictWriter.writerow] with the default [extrasaction='raise'] and
    [restval=(empty string)]. *)
Definition writerow (row : dict) : M unit :=
  match wrong_fields row with
  | [] =>
      append_row
        (DataRow (map (fun k => match dict_get k row with
                                | Some v => v
                                | None => JString EmptyString
                                end) fieldnames))
  | _ => raise ValueError
  end.

Fixpoint write_results (rs : list dict) : M unit :=
  match rs with
  | [] => ret tt
  | result :: rest =>
      row <- flatten_row result ;;
      writerow row ;;;
      write_results rest
  end.

(** [os.path.exists(f) and os.path.getsize(f) > 0] *)
Definition file_exists (st : state) : bool :=
  match output_csv st with
  | Some (_ :: _) => true
  | _ => false
  end.

(** [open(self.output_csv, 'a')] creates the file when it is absent. *)
Definition open_csv_a : M unit :=
  modify (fun st =>
    match output_csv st with
    | Some _ => st
    | None => with_output_csv (Some []) st
    end).

Definition save_results : M unit :=
  fun st =>
    match results st with
    | [] => logger NoResultsToSave st
    | _ =>
        let exists_ := file_exists st in
        (open_csv_a ;;;
         (if exists_ then ret tt else append_row (HeaderRow fieldnames)) ;;;
         write_results (results st)) st
    end.

(** *** [process_all] *)

(** [Path.suffix]: from the last dot of the name on, unless that dot starts
    or ends the name. *)
Definition suffix (file_name : string) : string :=
  match rfind_dot file_name with
  | Some i =>
      if (0 <? i) && (i <? String.length file_name - 1)
      then substring i (String.length file_name - i) file_name
      else EmptyString
  | None => EmptyString
  end.

Definition is_image (f : dir_entry) : bool :=
  is_file f
  && existsb (String.eqb (lower (suffix (name f)))) image_extensions.

Definition image_files (env : environment) : list string :=
  map name (filter is_image (iterdir env)).

(** [x in xs] and [x not in xs] for a name and a list of strings. *)
Definition contains (xs : list pystr) (x : string) : bool :=
  existsb (str_eqb x) xs.

Definition not_in (xs : list pystr) (x : string) : bool :=
  negb (contains xs x).

(** [xs[:m]] *)
Definition slice_list {A : Type} (m : Z) (xs : list A) : list A :=
  if (0 <=? m)%Z then firstn (Z.to_nat m) xs
  else firstn (List.length xs - Z.to_nat (- m)) xs.

(** Lines 281 to 284; [if max_files:] is false for [None] and for [0]. *)
Definition remaining_files (images : list string)
    (processed_files : list pystr) (max_files : option Z) : list string :=
  let remaining := filter (not_in processed_files) images in
  match max_files with
  | Some m => if (m =? 0)%Z then remaining else slice_list m remaining
  | None => remaining
  end.

(** [if result:] a dict is true when it is not empty. *)
Definition truthy (result : option dict) : bool :=
  match result with
  | Some (_ :: _) => true
  | _ => false
  end.

(** One iteration of the loop of lines 296 to 316; the value is the list
    [processed_files] after the iteration. *)
Definition process_file (env : environment) (total_files idx : nat)
    (image_file : string) (processed_files : list pystr)
  : M (list pystr) :=
  result <- analyze_invoice env image_file ;;
  processed_files' <-
    (if truthy result then
       modify (fun st =>
         with_processed_count (processed_count st + 1)
           (with_results (results st ++ match result with
                                        | Some data => [data]
                                        | None => []
                                        end) st)) ;;;
       ret (processed_files ++ [codes image_file])%list
     else
       modify (fun st => with_failed_count (failed_count st + 1) st) ;;;
       ret processed_files) ;;
  save_progress env processed_files' ;;;
  save_results ;;;
  (if idx <? total_files
   then time_sleep (RateLimit DELAY_BETWEEN_REQUESTS)
   else ret tt) ;;;
  ret processed_files'.

Fixpoint process_files (env : environment) (total_files idx : nat)
    (files : list string) (processed_files : list pystr)
  : M (list pystr) :=
  match files with
  | [] => ret processed_files
  | image_file :: rest =>
      processed_files' <-
        process_file env total_files idx image_file processed_files ;;
      process_files env total_files (S idx) rest processed_files'
  end.

Definition process_all (env : environment) (max_files : option Z) : M unit :=
  match image_files env with
  | [] => logger NoImageFiles
  | images =>
      processed_files <- load_progress ;;
      let remaining := remaining_files images processed_files max_files in
      let total_files := List.length remaining in
      process_files env total_files 1 remaining processed_files ;;;
      ret tt
  end.

End Invoice.


(** ** Vocabulary of the statements *)

Module Spec.
Import PyStr Json Invoice.
Local Open Scope string_scope.
Local Open Scope list_scope.
Local Open Scope nat_scope.



(** What one attempt makes of the capability's reply. *)
Definition reply_outcome (image : string) (r : reply) : outcome dict :=
  match r with
  | Reply text =>
      match loads reply_depth (strip_code_fences (strip text)) with
      | Decoded (JObject d) =>
          Return (dict_set "invoice_file" (JString image) d)
      | Decoded _ => Raise TypeError
      | Raises f => Raise (decoding_error f (strip_code_fences (strip text)))
      end
  | QuotaExceeded retry_delay => Raise (ResourceExhausted retry_delay)
  | Failed => Raise ApiError
  end.

(** The kinds of failure of an analysis. *)
Inductive failure_kind : Type :=
| QuotaExhausted
| MalformedOutput
| UnexpectedError.

(** [failing env image k attempt kind]: from attempt number [attempt]
    (counted from 0) on, which makes the invocation number [k], the
    analysis of [image] meets a failure of kind [kind]: the quota is
    exhausted at the last attempt; the reply is no JSON document; or
    something else goes wrong (the image cannot be opened, the capability
    raises another exception, the reply is JSON but no object, an integer
    of the reply has too many digits, the reply is nested too deep).
    Before that, the quota may be exhausted at earlier attempts. *)
Inductive failing (env : environment) (image : string)
  : nat -> nat -> failure_kind -> Prop :=
| fails_unreadable (k attempt : nat) :
    image_open env image = false ->
    failing env image k attempt UnexpectedError
| fails_api_error (k attempt : nat) :
    image_open env image = true ->
    generate_content env k image = Failed ->
    failing env image k attempt UnexpectedError
| fails_no_object (k attempt : nat) (text : string) (v : value) :
    image_open env image = true ->
    generate_content env k image = Reply text ->
    loads reply_depth (strip_code_fences (strip text)) = Decoded v ->
    (forall d, v <> JObject d) ->
    failing env image k attempt UnexpectedError
| fails_int_too_long (k attempt : nat) (text : string) :
    image_open env image = true ->
    generate_content env k image = Reply text ->
    loads reply_depth (strip_code_fences (strip text)) = Raises IntTooLong ->
    failing env image k attempt UnexpectedError
| fails_too_deep (k attempt : nat) (text : string) :
    image_open env image = true ->
    generate_content env k image = Reply text ->
    loads reply_depth (strip_code_fences (strip text)) = Raises TooDeep ->
    failing env image k attempt UnexpectedError
| fails_malformed (k attempt : nat) (text : string) :
    image_open env image = true ->
    generate_content env k image = Reply text ->
    loads reply_depth (strip_code_fences (strip text)) = Raises Malformed ->
    failing env image k attempt MalformedOutput
| fails_quota (k : nat) (d : option nat) :
    image_open env image = true ->
    generate_content env k image = QuotaExceeded d ->
    failing env image k 2 QuotaExhausted
| fails_later (k attempt : nat) (d : option nat) (kind : failure_kind) :
    image_open env image = true ->
    generate_content env k image = QuotaExceeded d ->
    attempt < 2 ->
    failing env image (S k) (S attempt) kind ->
    failing env image k attempt kind.

(** The error that the analysis logs last for a failure of kind [kind]. *)
Definition failure_record (kind : failure_kind) (image : string)
  : log_record -> Prop :=
  match kind with
  | QuotaExhausted => eq (QuotaGiveUp image)
  | MalformedOutput => fun r => exists text, r = ResponsePrefix text
  | UnexpectedError => eq (ProcessingError image)
  end.

(** The fields that [analyze_invoice] never touches. *)
Definition same_store (st st' : state) : Prop :=
  processed_count st' = processed_count st
  /\ failed_count st' = failed_count st
  /\ results st' = results st
  /\ progress_file st' = progress_file st
  /\ output_csv st' = output_csv st
  /\ ticks st' = ticks st.

Definition is_backoff (s : sleep_call) : Prop :=
  match s with Backoff _ => True | RateLimit _ => False end.

(** The row that [flatten_row] hands to the writer, when it does not raise. *)
Definition flat (result : dict) : option dict :=
  match dict_get "items_found" result with
  | Some (JArray items) =>
      match strings_of items with
      | Some xs =>
          Some (dict_set "items_found" (JString (str_join ", " xs)) result)
      | None => None
      end
  | _ => Some result
  end.

(** A result that [save_results] writes without raising. *)
Definition writable (result : dict) : bool :=
  match flat result with
  | Some row => match wrong_fields row with [] => true | _ => false end
  | None => false
  end.

Definition data_row (row : dict) : csv_row :=
  DataRow (map (fun k => match dict_get k row with
                         | Some v => v
                         | None => JString EmptyString
                         end) fieldnames).

Definition rows_of (rs : list dict) : list csv_row :=
  flat_map (fun r => match flat r with
                     | Some row => [data_row row]
                     | None => []
                     end) rs.

(** The state that a successful [save_results] leaves. *)
Definition stored (st : state) : state :=
  match results st with
  | [] => with_log (log st ++ [NoResultsToSave]) st
  | rs =>
      with_output_csv
        (Some (match output_csv st with
               | Some (r :: rows) => r :: rows
               | _ => [HeaderRow fieldnames]
               end ++ rows_of rs)) st
  end.

(** The state that [save_progress] leaves. *)
Definition saved (env : environment) (processed : list pystr) (st : state)
  : state :=
  with_timeline (timeline st ++ [LedgerSave])
    (with_ticks (S (ticks st))
       (with_progress_file (Some (progress_text env processed st)) st)).

(** The rate-limiting pause at the end of iteration [idx]. *)
Definition paced (total idx : nat) (st : state) : state :=
  if idx <? total then slept (RateLimit DELAY_BETWEEN_REQUESTS) st else st.

(** The counters and the result list after the analysis of one item. *)
Definition counted (r : option dict) (st : state) : state :=
  if truthy r then
    with_processed_count (processed_count st + 1)
      (with_results (results st ++ match r with
                                   | Some data => [data]
                                   | None => []
                                   end) st)
  else with_failed_count (failed_count st + 1) st.

Definition ledger_after (r : option dict) (image : string)
    (processed : list pystr) : list pystr :=
  if truthy r then processed ++ [codes image] else processed.

(** Everything but the result file and the log. *)
Definition same_but_csv (st st' : state) : Prop :=
  processed_count st' = processed_count st
  /\ failed_count st' = failed_count st
  /\ results st' = results st
  /\ progress_file st' = progress_file st
  /\ api_calls st' = api_calls st
  /\ sleeps st' = sleeps st
  /\ ticks st' = ticks st
  /\ timeline st' = timeline st.

(** The events of the analysis of [image]: invocations for it and back-off
    sleeps. *)
Definition item_event (image : string) (e : event) : bool :=
  match e with
  | Invocation i => String.eqb i image
  | Sleep (Backoff _) => true
  | Sleep (RateLimit _) => false
  | LedgerSave => false
  end.

(** The pause of the rate limiter. *)
Definition pause : event := Sleep (RateLimit DELAY_BETWEEN_REQUESTS).

(** The events of a loop over items whose analyses make the events
    [per_item]: for each item its analysis, then the write of the ledger,
    then, unless the item is the last one, the pause. *)
Fixpoint run_events (per_item : list (list event)) : list event :=
  match per_item with
  | [] => []
  | evs :: rest =>
      evs ++ LedgerSave :: match rest with
                           | [] => []
                           | _ => pause :: run_events rest
                           end
  end.

(** The pauses that the rate limiter asked for. *)
Definition rate_limit_sleeps (l : list sleep_call) : list Q :=
  flat_map (fun s => match s with
                     | RateLimit d => [d]
                     | Backoff _ => []
                     end) l.

(** The work set that a run started in [st] computes (empty when the run
    stops before computing one). *)
Definition planned_files (env : environment) (max_files : option Z)
    (st : state) : list string :=
  match image_files env with
  | [] => []
  | images =>
      match load_progress st with
      | (Return processed, _) => remaining_files images processed max_files
      | (Raise _, _) => []
      end
  end.

Definition is_header (r : csv_row) : bool :=
  match r with
  | HeaderRow _ => true
  | DataRow _ => false
  end.

Definition rows (f : option (list csv_row)) : list csv_row :=
  match f with
  | Some rs => rs
  | None => []
  end.

Definition header_rows (f : option (list csv_row)) : nat :=
  List.length (filter is_header (rows f)).

Definition data_rows (f : option (list csv_row)) : nat :=
  List.length (filter (fun r => negb (is_header r)) (rows f)).

(** The data rows whose [invoice_file] column holds [image]. *)
Definition data_rows_for (image : string) (f : option (list csv_row)) : nat :=
  List.length
    (filter (fun r => match r with
                      | DataRow (JString x :: _) => str_eqb x image
                      | _ => false
                      end) (rows f)).

End Spec.

(** ** Sample runs *)

Module Examples.
Import PyStr Json Invoice.
Local Open Scope string_scope.

Definition newline : string := String (ascii_of_nat 10) EmptyString.

(** Turns every apostrophe into a double quote, so that JSON texts can be
    written down as readable literals. *)
Fixpoint dq (s : string) : string :=
  match s with
  | EmptyString => EmptyString
  | String c r => String (if Ascii.eqb c "'"%char then dquote else c) (dq r)
  end.

Definition folder : list dir_entry :=
  [ {| name := "a.png"; is_file := true |};
    {| name := "notes.txt"; is_file := true |};
    {| name := "b.JPG"; is_file := true |};
    {| name := "scans.png"; is_file := false |} ].

(** A capability that gives the same reply to every invocation. *)
Definition constant_env (r : reply) : environment :=
  {| iterdir := folder;
     image_open := fun _ => true;
     generate_content := fun _ _ => r;
     now_isoformat := fun _ => "2024-05-01T09:30:00" |}.

Definition good_body : string :=
  dq ("'invoice_number': 'INV-7', 'category': 'Utilities', "
      ++ "'items_found': ['water', 'power'], 'total_amount': '35.10'").

Definition good_payload : string := String "{" (good_body ++ "}").

Definition env_ok : environment :=
  constant_env
    (Reply ("```json" ++ newline ++ good_payload ++ newline ++ "```")).

Definition env_malformed : environment :=
  constant_env (Reply "The image is unreadable.").

Definition env_quota : environment := constant_env (QuotaExceeded None).

Fixpoint copies (n : nat) (s : string) : string :=
  match n with
  | O => EmptyString
  | S n' => s ++ copies n' s
  end.

(** A JSON object with an escape above U+00FF and a surrogate pair. *)
Definition escapes_payload : string :=
  dq "{'seller': 'caf\u00e9 \u20ac', 'client': '\ud83d\ude00'}".

(** A JSON object with an integer of [digits] digits. *)
Definition integer_payload (digits : nat) : string :=
  dq "{'total_amount': " ++ copies digits "7" ++ "}".

(** A JSON object that holds [depth - 1] arrays inside each other. *)
Definition nested_payload (depth : nat) : string :=
  dq "{'items_found': " ++ copies (depth - 1) "[" ++ copies (depth - 1) "]"
  ++ "}".


Definition extra_payload : string :=
  dq "{'invoice_number': 'INV-7', 'currency': 'EUR'}".

Definition env_extra : environment := constant_env (Reply extra_payload).



End Examples.

(** * Properties *)

(** ** Strings *)

Module StrFacts.
Import PyStr.

Lemma append_assoc (a b c : string) : (a ++ b) ++ c = a ++ (b ++ c).
Proof.
  induction a as [|x a IH]; simpl; [reflexivity|now rewrite IH].
Qed.

Lemma append_empty_r (a : string) : a ++ EmptyString = a.
Proof.
  induction a as [|x a IH]; simpl; [reflexivity|now rewrite IH].
Qed.

Lemma length_append (a b : string) :
  String.length (a ++ b) = String.length a + String.length b.
Proof.
  induction a as [|x a IH]; simpl; [reflexivity|now rewrite IH].
Qed.

Lemma substring_all (s : string) : substring 0 (String.length s) s = s.
Proof.
  induction s as [|x s IH]; simpl; [reflexivity|now rewrite IH].
Qed.


Lemma substring_prefix (n : nat) (s : string) :
  prefix (substring 0 n s) s = true.
Proof.
  revert n; induction s as [|x s IH]; intros [|n]; simpl; try reflexivity.
  destruct (ascii_dec x x); [apply IH|congruence].
Qed.


End StrFacts.

(** ** The JSON codec on ledger documents *)

Module JsonFacts.
Import PyStr Json StrFacts.

(** *** Strings as lists of code points *)

Lemma str_eqb_spec (a b : pystr) : reflect (a = b) (str_eqb a b).
Proof.
  revert b. induction a as [|x a IH]; intros [|y b]; cbn [str_eqb];
    try (constructor; congruence).
  destruct (N.eqb_spec x y) as [->|Hxy]; cbn [andb].
  - destruct (IH b) as [->|Hab]; constructor; congruence.
  - constructor. congruence.
Qed.

Lemma str_eqb_refl (a : pystr) : str_eqb a a = true.
Proof. now destruct (str_eqb_spec a a). Qed.

Lemma str_eqb_eq (a b : pystr) : str_eqb a b = true <-> a = b.
Proof. destruct (str_eqb_spec a b); split; congruence. Qed.

Lemma str_eqb_neq (a b : pystr) : str_eqb a b = false <-> a <> b.
Proof. destruct (str_eqb_spec a b); split; congruence. Qed.

Lemma str_eqb_sym (a b : pystr) : str_eqb a b = str_eqb b a.
Proof.
  destruct (str_eqb_spec a b), (str_eqb_spec b a); congruence.
Qed.

Lemma codes_append (a b : string) :
  codes (a ++ b) = (codes a ++ codes b)%list.
Proof.
  induction a as [|c a IH]; cbn [append codes app]; [reflexivity|].
  now rewrite IH.
Qed.

Lemma N_of_ascii_inj (c d : ascii) : N_of_ascii c = N_of_ascii d -> c = d.
Proof.
  intros H. rewrite <- (ascii_N_embedding c), <- (ascii_N_embedding d).
  now rewrite H.
Qed.

Lemma codes_inj (a b : string) : codes a = codes b -> a = b.
Proof.
  revert b. induction a as [|c a IH]; intros [|d b] H; cbn [codes] in H;
    try discriminate; [reflexivity|].
  injection H as Hc Hr. apply N_of_ascii_inj in Hc. subst d.
  now rewrite (IH b Hr).
Qed.

Lemma str_eqb_codes (a b : string) :
  str_eqb (codes a) (codes b) = String.eqb a b.
Proof.
  destruct (str_eqb_spec (codes a) (codes b)) as [H|H],
           (String.eqb_spec a b) as [E|E]; try reflexivity.
  - now apply codes_inj in H.
  - now subst.
Qed.

Lemma length_codes (s : string) : List.length (codes s) = String.length s.
Proof. induction s as [|c s IH]; cbn; [reflexivity|now rewrite IH]. Qed.

(** *** Escapes *)

Lemma hex_value_bound (c : ascii) (x : nat) : hex_value c = Some x -> x < 16.
Proof.
  destruct c as [[] [] [] [] [] [] [] []]; vm_compute;
    first [discriminate|intros [= <-]; repeat constructor].
Qed.

Lemma decode_u_bound (a b c d : ascii) (u : N) :
  decode_u a b c d = Some u -> (u < 65536)%N.
Proof.
  unfold decode_u.
  destruct (hex_value a) as [x|] eqn:Ea; [|discriminate].
  destruct (hex_value b) as [y|] eqn:Eb; [|discriminate].
  destruct (hex_value c) as [z|] eqn:Ec; [|discriminate].
  destruct (hex_value d) as [w|] eqn:Ed; [|discriminate].
  apply hex_value_bound in Ea, Eb, Ec, Ed. intros [= <-]. lia.
Qed.

Lemma hex_value_digit (k : nat) :
  k < 16 -> hex_value (hex_digit (N.of_nat k)) = Some k.
Proof.
  intros H. do 16 (destruct k as [|k]; [reflexivity|]). lia.
Qed.

Lemma decode_u_escape (n : N) :
  (n < 65536)%N ->
  decode_u (hex_digit ((n / 4096) mod 16)) (hex_digit ((n / 256) mod 16))
    (hex_digit ((n / 16) mod 16)) (hex_digit (n mod 16)) = Some n.
Proof.
  intros Hn. unfold decode_u.
  assert (Hd : forall d, (d < 16)%N ->
                         hex_value (hex_digit d) = Some (N.to_nat d)).
  { intros d Hd. rewrite <- (N2Nat.id d) at 1. apply hex_value_digit. lia. }
  rewrite !Hd by (apply N.mod_lt; discriminate).
  f_equal.
  pose proof (N.div_mod n 16 ltac:(discriminate)) as H1.
  pose proof (N.div_mod (n / 16) 16 ltac:(discriminate)) as H2.
  pose proof (N.div_mod (n / 256) 16 ltac:(discriminate)) as H3.
  pose proof (N.mod_lt n 16 ltac:(discriminate)).
  pose proof (N.mod_lt (n / 16) 16 ltac:(discriminate)).
  pose proof (N.mod_lt (n / 256) 16 ltac:(discriminate)).
  assert (E1 : (n / 256 = n / 16 / 16)%N)
    by (rewrite N.Div0.div_div; reflexivity).
  assert (E2 : (n / 4096 = n / 256 / 16)%N)
    by (rewrite N.Div0.div_div; reflexivity).
  assert (E3 : ((n / 4096) mod 16 = n / 4096)%N).
  { apply N.mod_small. apply N.Div0.div_lt_upper_bound. exact Hn. }
  rewrite E3. rewrite E2 in *. rewrite E1 in *. lia.
Qed.

(** *** The decoder reads back what the encoder writes *)

Lemma scan_string_u (h1 h2 h3 h4 : ascii) (t : string) :
  scan_string
    (String backslash
       (String "u" (String h1 (String h2 (String h3 (String h4 t))))))
  = match decode_u h1 h2 h3 h4 with
    | Some u =>
        if is_high_surrogate u then after_high_surrogate scan_string u t
        else push u (scan_string t)
    | None => None
    end.
Proof. reflexivity. Qed.

Lemma scan_u_escape (n : N) (t : string) :
  (n < 65536)%N ->
  scan_string (u_escape n ++ t)
  = if is_high_surrogate n then after_high_surrogate scan_string n t
    else push n (scan_string t).
Proof.
  intros Hn. unfold u_escape. cbn [append].
  now rewrite scan_string_u, decode_u_escape.
Qed.

Lemma after_high_u_escape (u l : N) (t : string) :
  (l < 65536)%N ->
  after_high_surrogate scan_string u (u_escape l ++ t)
  = if is_low_surrogate l then push (join_surrogates u l) (scan_string t)
    else push u (scan_string (u_escape l ++ t)).
Proof.
  intros Hl. unfold u_escape. cbn [append after_high_surrogate].
  change (Ascii.eqb backslash backslash) with true.
  change (Ascii.eqb "u" "u") with true. cbv iota.
  now rewrite decode_u_escape.
Qed.

(** The escape of a code point below 256, whatever follows. *)
Lemma scan_escape_narrow (c : ascii) (t : string) :
  scan_string (escape_char (N_of_ascii c) ++ t)
  = push (N_of_ascii c) (scan_string t).
Proof. destruct c as [[] [] [] [] [] [] [] []]; reflexivity. Qed.

Lemma after_high_narrow (u : N) (c : ascii) (t : string) :
  after_high_surrogate scan_string u (escape_char (N_of_ascii c) ++ t)
  = push u (scan_string (escape_char (N_of_ascii c) ++ t)).
Proof. destruct c as [[] [] [] [] [] [] [] []]; reflexivity. Qed.

Lemma narrow_code (n : N) :
  (n < 256)%N -> exists c : ascii, n = N_of_ascii c.
Proof.
  intros H. exists (ascii_of_N n). symmetry. now apply N_ascii_embedding.
Qed.

Lemma escape_char_wide (n : N) :
  (256 <= n)%N ->
  escape_char n
  = if (n <? 65536)%N then u_escape n
    else u_escape (55296 + (n - 65536) / 1024)
         ++ u_escape (56320 + (n - 65536) mod 1024).
Proof.
  intros H. unfold escape_char.
  repeat match goal with
         | |- context [(n =? ?k)%N] =>
             destruct (N.eqb_spec n k) as [E|_]; [lia|]
         end.
  replace (126 <? n)%N with true by (symmetry; apply N.ltb_lt; lia).
  now rewrite orb_true_r.
Qed.

Lemma surrogate_parts (n : N) :
  (65536 <= n < 1114112)%N ->
  let h := (55296 + (n - 65536) / 1024)%N in
  let l := (56320 + (n - 65536) mod 1024)%N in
  (h < 65536)%N /\ (l < 65536)%N
  /\ is_high_surrogate h = true /\ is_low_surrogate h = false
  /\ is_low_surrogate l = true
  /\ join_surrogates h l = n.
Proof.
  intros Hn h l.
  pose proof (N.div_mod (n - 65536) 1024 ltac:(discriminate)) as Hdm.
  pose proof (N.mod_lt (n - 65536) 1024 ltac:(discriminate)) as Hm.
  assert (Hq : ((n - 65536) / 1024 < 1024)%N)
    by (apply N.Div0.div_lt_upper_bound; lia).
  unfold is_high_surrogate, is_low_surrogate, join_surrogates.
  subst h l.
  set (q := ((n - 65536) / 1024)%N) in *.
  set (m := ((n - 65536) mod 1024)%N) in *. clearbody q m.
  repeat split;
    rewrite ?andb_true_iff, ?andb_false_iff, ?N.leb_le, ?N.leb_gt; lia.
Qed.

(** What stands after a high surrogate in a sound string is no escaped low
    surrogate, so the high surrogate is read back on its own. *)
Lemma after_high_escape (u : N) (r : pystr) (rest : string) :
  starts_low r = false ->
  sound r = true ->
  after_high_surrogate scan_string u (escape r ++ String dquote rest)
  = push u (scan_string (escape r ++ String dquote rest)).
Proof.
  intros Hlow Hr. destruct r as [|m r]; [reflexivity|].
  cbn [escape starts_low sound] in *. rewrite append_assoc.
  apply andb_prop in Hr as [Hr _]. apply andb_prop in Hr as [Hm _].
  apply N.ltb_lt in Hm.
  destruct (N.lt_ge_cases m 256) as [Hn|Hw].
  - destruct (narrow_code m Hn) as [c ->]. apply after_high_narrow.
  - rewrite escape_char_wide by exact Hw.
    destruct (N.ltb_spec m 65536) as [Hs|Hb].
    + rewrite after_high_u_escape by exact Hs. now rewrite Hlow.
    + destruct (surrogate_parts m ltac:(lia)) as (Hh & _ & _ & Hnl & _).
      rewrite append_assoc, after_high_u_escape by exact Hh.
      now rewrite Hnl.
Qed.

Lemma scan_escape_char (n : N) (r : pystr) (rest : string) :
  sound (n :: r) = true ->
  scan_string (escape_char n ++ escape r ++ String dquote rest)
  = push n (scan_string (escape r ++ String dquote rest)).
Proof.
  intros H. cbn [sound] in H. apply andb_prop in H as [H Hr].
  apply andb_prop in H as [Hn Hpair]. apply N.ltb_lt in Hn.
  destruct (N.lt_ge_cases n 256) as [Hs|Hw].
  - destruct (narrow_code n Hs) as [c ->]. apply scan_escape_narrow.
  - rewrite escape_char_wide by exact Hw.
    destruct (N.ltb_spec n 65536) as [Hu|Hb].
    + rewrite scan_u_escape by exact Hu.
      destruct (is_high_surrogate n) eqn:Eh; [|reflexivity].
      apply after_high_escape; [|exact Hr].
      cbn [andb negb] in Hpair. now destruct (starts_low r).
    + destruct (surrogate_parts n ltac:(lia))
        as (Hh & Hl & Ehigh & _ & Elow & Ejoin).
      rewrite append_assoc, scan_u_escape by exact Hh.
      rewrite Ehigh, after_high_u_escape by exact Hl.
      now rewrite Elow, Ejoin.
Qed.

Lemma scan_string_escape (x : pystr) (rest : string) :
  sound x = true ->
  scan_string (escape x ++ String dquote rest) = Some (x, rest).
Proof.
  induction x as [|n x IH]; intros H; [reflexivity|].
  cbn [escape]. rewrite append_assoc, scan_escape_char by exact H.
  cbn [sound] in H. apply andb_prop in H as [_ H]. now rewrite IH.
Qed.

Lemma sound_codes (s : string) : sound (codes s) = true.
Proof.
  induction s as [|c s IH]; [reflexivity|]. cbn [codes sound].
  rewrite IH, andb_true_r.
  replace (is_high_surrogate (N_of_ascii c)) with false
    by (destruct c as [[] [] [] [] [] [] [] []]; reflexivity).
  rewrite andb_true_r. apply N.ltb_lt.
  pose proof (N_ascii_bounded c). lia.
Qed.

(** *** The decoder builds sound strings only *)

Lemma push_inv (c : N) (o : option (pystr * string)) (x : pystr)
    (r : string) :
  push c o = Some (x, r) -> exists x', o = Some (x', r) /\ x = c :: x'.
Proof.
  destruct o as [[x' r']|]; cbn [push]; [|discriminate].
  intros [= <- <-]. now exists x'.
Qed.

Lemma after_high_inv (scan : string -> option (pystr * string)) (u : N)
    (t : string) (x : pystr) (r : string) :
  after_high_surrogate scan u t = Some (x, r) ->
  (exists (k1 k2 k3 k4 : ascii) (t' : string) (l : N) (x' : pystr),
      t = String backslash
            (String "u" (String k1 (String k2 (String k3 (String k4 t')))))
      /\ decode_u k1 k2 k3 k4 = Some l
      /\ is_low_surrogate l = true
      /\ scan t' = Some (x', r)
      /\ x = join_surrogates u l :: x')
  \/ (exists x' : pystr,
         scan t = Some (x', r) /\ x = u :: x' /\ low_escape t = false).
Proof.
  unfold after_high_surrogate, low_escape.
  destruct t as [|b t1]; [intros H; apply push_inv in H as (x' & H & ->);
                           right; now exists x'|].
  destruct (Ascii.eqb_spec b backslash) as [->|Hb];
    [|intros H; apply push_inv in H as (x' & H & ->); right; exists x';
      repeat split; try assumption;
      destruct t1 as [|? [|? [|? [|? [|? ?]]]]]; reflexivity].
  destruct t1 as [|e t2]; [intros H; apply push_inv in H as (x' & H & ->);
                            right; now exists x'|].
  destruct (Ascii.eqb_spec e "u"%char) as [->|He];
    [|intros H; apply push_inv in H as (x' & H & ->); right; exists x';
      repeat split; try assumption;
      destruct t2 as [|? [|? [|? [|? ?]]]]; rewrite ?andb_false_r;
      reflexivity].
  destruct t2 as [|k1 [|k2 [|k3 [|k4 t']]]];
    try (intros H; apply push_inv in H as (x' & H & ->); right; now exists x').
  destruct (decode_u k1 k2 k3 k4) as [l|] eqn:El; [|discriminate].
  destruct (is_low_surrogate l) eqn:Elow; intros H;
    apply push_inv in H as (x' & H & ->).
  - left. now exists k1, k2, k3, k4, t', l, x'.
  - right. now exists x'.
Qed.

Lemma is_low_narrow (c : ascii) : is_low_surrogate (N_of_ascii c) = false.
Proof. destruct c as [[] [] [] [] [] [] [] []]; reflexivity. Qed.

Lemma is_high_narrow (c : ascii) : is_high_surrogate (N_of_ascii c) = false.
Proof. destruct c as [[] [] [] [] [] [] [] []]; reflexivity. Qed.

Lemma unescape_small (e : ascii) (x : N) :
  unescape e = Some x ->
  (x < 1114112)%N /\ is_high_surrogate x = false
  /\ is_low_surrogate x = false.
Proof.
  unfold unescape.
  repeat match goal with
         | |- context [if ?b then _ else _] => destruct b
         end; intros [= <-]; repeat split; reflexivity.
Qed.

Lemma join_surrogates_bound (u l : N) :
  is_high_surrogate u = true -> is_low_surrogate l = true ->
  (join_surrogates u l < 1114112)%N
  /\ is_high_surrogate (join_surrogates u l) = false
  /\ is_low_surrogate (join_surrogates u l) = false.
Proof.
  unfold is_high_surrogate, is_low_surrogate, join_surrogates.
  rewrite !andb_true_iff, !andb_false_iff, !N.leb_le, !N.leb_gt. lia.
Qed.

(** A decoded string is sound, and it starts with a low surrogate only when
    the text starts with the escape of one. *)
Lemma scan_string_sound (n : nat) :
  forall (s : string) (x : pystr) (r : string),
    String.length s <= n ->
    scan_string s = Some (x, r) ->
    sound x = true /\ (starts_low x = true -> low_escape s = true).
Proof.
  induction n as [|n IH]; intros s x r Hn H.
  - destruct s; [discriminate|cbn in Hn; lia].
  - destruct s as [|c s]; [discriminate|].
    cbn [scan_string] in H. cbn [String.length] in Hn.
    destruct (Ascii.eqb c dquote); [injection H as <- _; now split|].
    destruct (Ascii.eqb_spec c backslash) as [->|Hc].
    + destruct s as [|e s1]; [discriminate|].
      destruct (Ascii.eqb_spec e "u"%char) as [->|He].
      * destruct s1 as [|h1 [|h2 [|h3 [|h4 s2]]]]; try discriminate.
        cbn [String.length] in Hn.
        destruct (decode_u h1 h2 h3 h4) as [u|] eqn:Eu; [|discriminate].
        pose proof (decode_u_bound _ _ _ _ _ Eu) as Hu.
        assert (Hlow : low_escape
                   (String backslash (String "u" (String h1 (String h2
                      (String h3 (String h4 s2))))))
                 = is_low_surrogate u)
          by (unfold low_escape; rewrite Eu; reflexivity).
        rewrite Hlow.
        destruct (is_high_surrogate u) eqn:Ehigh.
        -- apply after_high_inv in H
             as [(k1 & k2 & k3 & k4 & t' & l & x' & -> & El & Elow & H & ->)
                |(x' & H & -> & Hno)].
           ++ destruct (join_surrogates_bound u l Ehigh Elow)
                as (Hb & Hh & Hl).
              apply IH in H; [|cbn [String.length] in Hn; lia].
              cbn [sound starts_low]. rewrite Hh, Hl.
              replace (join_surrogates u l <? 1114112)%N with true
                by (symmetry; now apply N.ltb_lt).
              split; [apply H|discriminate].
           ++ apply IH in H as [Hs Hx]; [|lia].
              cbn [sound starts_low]. rewrite Ehigh, Hs.
              replace (u <? 1114112)%N with true
                by (symmetry; apply N.ltb_lt; lia).
              destruct (starts_low x') eqn:Ex;
                [rewrite (Hx eq_refl) in Hno; discriminate|].
              split; [reflexivity|].
              unfold is_high_surrogate, is_low_surrogate in *.
              rewrite andb_true_iff, !N.leb_le in *. lia.
        -- apply push_inv in H as (x' & H & ->).
           apply IH in H as [Hs _]; [|lia].
           cbn [sound starts_low]. rewrite Ehigh, Hs.
           replace (u <? 1114112)%N with true
             by (symmetry; apply N.ltb_lt; lia).
           now split.
      * destruct (unescape e) as [x0|] eqn:Ee; [|discriminate].
        apply push_inv in H as (x' & H & ->).
        apply IH in H as [Hs _]; [|cbn [String.length] in Hn; lia].
        destruct (unescape_small _ _ Ee) as (Hb & Hh & Hl).
        cbn [sound starts_low]. rewrite Hh, Hl, Hs.
        replace (x0 <? 1114112)%N with true by (symmetry; now apply N.ltb_lt).
        split; [reflexivity|discriminate].
    + destruct (nat_of_ascii c <? 32); [discriminate|].
      apply push_inv in H as (x' & H & ->).
      apply IH in H as [Hs _]; [|lia].
      cbn [sound starts_low]. rewrite is_high_narrow, is_low_narrow, Hs.
      replace (N_of_ascii c <? 1114112)%N with true
        by (symmetry; apply N.ltb_lt; pose proof (N_ascii_bounded c); lia).
      split; [reflexivity|discriminate].
Qed.

Lemma scan_string_sound_string (s : string) (x : pystr) (r : string) :
  scan_string s = Some (x, r) -> sound x = true.
Proof.
  intros H. now apply (scan_string_sound _ _ _ _ (le_n _)) in H.
Qed.

(** *** The fuel of the decoder *)

Lemma skip_ws_length (s : string) :
  String.length (skip_ws s) <= String.length s.
Proof.
  induction s as [|c s IH]; cbn [skip_ws String.length]; [lia|].
  destruct (is_ws c); cbn [String.length]; lia.
Qed.

Lemma expect_length (c : ascii) (s r : string) :
  expect c s = Some r -> String.length s = S (String.length r).
Proof.
  destruct s as [|c' s]; cbn [expect]; [discriminate|].
  destruct (Ascii.eqb c c'); now intros [= <-].
Qed.

Lemma scan_string_length (n : nat) :
  forall (s : string) (x : pystr) (r : string),
    String.length s <= n ->
    scan_string s = Some (x, r) -> String.length r < String.length s.
Proof.
  induction n as [|n IH]; intros s x r Hn H.
  - destruct s; [discriminate|cbn in Hn; lia].
  - destruct s as [|c s]; [discriminate|].
    cbn [scan_string] in H. cbn [String.length] in *.
    destruct (Ascii.eqb c dquote); [injection H as _ <-; lia|].
    destruct (Ascii.eqb c backslash).
    + destruct s as [|e s1]; [discriminate|].
      destruct (Ascii.eqb e "u").
      * destruct s1 as [|h1 [|h2 [|h3 [|h4 s2]]]]; try discriminate.
        cbn [String.length] in *.
        destruct (decode_u h1 h2 h3 h4) as [u|]; [|discriminate].
        destruct (is_high_surrogate u).
        -- apply after_high_inv in H
             as [(k1 & k2 & k3 & k4 & t' & l & x' & -> & _ & _ & H & _)
                |(x' & H & _ & _)];
             apply IH in H; cbn [String.length] in *; lia.
        -- apply push_inv in H as (x' & H & _). apply IH in H; lia.
      * destruct (unescape e); [|discriminate].
        apply push_inv in H as (x' & H & _). apply IH in H;
          cbn [String.length] in *; lia.
    + destruct (nat_of_ascii c <? 32); [discriminate|].
      apply push_inv in H as (x' & H & _). apply IH in H; lia.
Qed.

Lemma span_digits_length (s ds r : string) :
  span_digits s = (ds, r) -> String.length r <= String.length s.
Proof.
  revert ds r. induction s as [|c s IH]; intros ds r H; cbn [span_digits] in H.
  - injection H as _ <-. lia.
  - destruct (is_digit c).
    + destruct (span_digits s) as [ds' r'] eqn:E. injection H as _ <-.
      specialize (IH _ _ eq_refl). cbn [String.length]. lia.
    + injection H as _ <-. lia.
Qed.

Lemma scan_fraction_length (s f r : string) :
  scan_fraction s = (f, r) -> String.length r <= String.length s.
Proof.
  unfold scan_fraction. destruct s as [|c s]; [intros [= _ <-]; lia|].
  destruct (Ascii.eqb_spec c "."); [subst c|].
  - destruct (span_digits s) as [ds r'] eqn:E. apply span_digits_length in E.
    destruct ds; intros [= _ <-]; cbn [String.length]; lia.
  - destruct c as [[] [] [] [] [] [] [] []]; try congruence;
      intros [= _ <-]; lia.
Qed.

Lemma scan_exponent_length (s e r : string) :
  scan_exponent s = (e, r) -> String.length r <= String.length s.
Proof.
  unfold scan_exponent. destruct s as [|c s]; [intros [= _ <-]; lia|].
  destruct (_ || _); [|intros [= _ <-]; lia].
  assert (H : forall sign r1, String.length r1 <= String.length s ->
            (let (sign, r1) := (sign, r1) : string * string in
             match span_digits r1 with
             | (EmptyString, _) => (EmptyString, String c s)
             | (ds, r') => (String c (sign ++ ds), r')
             end) = (e, r) -> String.length r <= String.length (String c s)).
  { intros sign r1 Hr1. destruct (span_digits r1) as [ds r'] eqn:E.
    apply span_digits_length in E.
    destruct ds; intros [= _ <-]; cbn [String.length]; lia. }
  destruct s as [|g s']; [apply H; lia|].
  destruct (_ || _); apply H; cbn [String.length]; lia.
Qed.

Lemma scan_number_length (s lit r : string) :
  scan_number s = Ok lit r -> String.length r < String.length s.
Proof.
  unfold scan_number.
  assert (H : forall sign s1, String.length s1 <= String.length s ->
    match s1 with
    | String c r0 =>
      if is_digit c
      then
       let (int_part, r1) :=
         if Ascii.eqb c "0"
         then (String c EmptyString, r0)
         else let (ds, r') := span_digits r0 in (String c ds, r') in
       let (frac, r2) := scan_fraction r1 in
       let (expo, r3) := scan_exponent r2 in
       if int_too_long int_part frac expo then Fail IntTooLong
       else Ok (sign ++ int_part ++ frac ++ expo) r3
      else Fail Malformed
    | EmptyString => Fail Malformed
    end = Ok lit r -> String.length r < String.length s).
  { intros sign s1 Hs1. destruct s1 as [|c r0]; [discriminate|].
    destruct (is_digit c); [|discriminate].
    assert (Hint : forall p : string * string,
              String.length (snd p) <= String.length r0 ->
              (let (int_part, r1) := p in
               let (frac, r2) := scan_fraction r1 in
               let (expo, r3) := scan_exponent r2 in
               if int_too_long int_part frac expo then Fail IntTooLong
               else Ok (sign ++ int_part ++ frac ++ expo) r3) = Ok lit r ->
              String.length r < String.length s).
    { intros [ip r1] Hr1. cbn [snd] in Hr1.
      destruct (scan_fraction r1) as [fr r2] eqn:E2.
      destruct (scan_exponent r2) as [ex r3] eqn:E3.
      apply scan_fraction_length in E2. apply scan_exponent_length in E3.
      destruct (int_too_long ip fr ex); [discriminate|].
      intros [= _ <-]. cbn [String.length] in Hs1. lia. }
    destruct (Ascii.eqb c "0");
      [apply (Hint (String c EmptyString, r0)); cbn; lia|].
    destruct (span_digits r0) as [ds r'] eqn:E. apply span_digits_length in E.
    apply (Hint (String c ds, r')). exact E. }
  match goal with
  | |- context [let (_, _) := ?p in _] => destruct p as [sign s1] eqn:E
  end.
  apply H.
  destruct s as [|c s']; [injection E as _ <-; lia|].
  destruct c as [[] [] [] [] [] [] [] []]; injection E as _ <-;
    cbn [String.length]; lia.
Qed.

Lemma substring_length_le (s : string) :
  forall n m, String.length (substring n m s) <= m.
Proof.
  induction s as [|c s IH]; intros [|n] [|m]; cbn; try lia.
  - specialize (IH 0 m). lia.
  - apply IH.
  - apply IH.
Qed.

Lemma scan_literal_length (lit : string) (v v' : value) (s r : string) :
  lit <> EmptyString ->
  scan_literal lit v s = Ok v' r -> String.length r < String.length s.
Proof.
  intros Hlit. unfold scan_literal.
  destruct (prefix lit s) eqn:E; [|discriminate]. intros [= _ <-].
  pose proof (substring_length_le s (String.length lit)
                (String.length s - String.length lit)).
  destruct lit as [|a lit]; [congruence|].
  destruct s as [|b s]; [discriminate|]. cbn [String.length] in *. lia.
Qed.

Lemma scan_number_or_infinity_length (s : string) (v : value) (r : string) :
  match scan_number s with
  | Ok lit r => Ok (JNumber lit) r
  | Fail Malformed => scan_literal "-Infinity" (JNumber "-Infinity") s
  | Fail f => Fail f
  end = Ok v r -> String.length r < String.length s.
Proof.
  destruct (scan_number s) as [lit r'|[]] eqn:E; try discriminate.
  - intros [= _ <-]. eapply scan_number_length. exact E.
  - apply scan_literal_length. discriminate.
Qed.

Lemma scan_atom_length (s : string) (v : value) (r : string) :
  scan_atom s = Ok v r -> String.length r < String.length s.
Proof.
  unfold scan_atom. destruct s as [|c s'].
  - apply scan_number_or_infinity_length.
  - destruct c as [[] [] [] [] [] [] [] []];
      first [apply scan_number_or_infinity_length
            |apply scan_literal_length; discriminate].
Qed.

Lemma parse_value_eq (f : nat) (d : N) (s : string) :
  parse_value (S f) d s =
  match expect dquote s with
  | Some r =>
      match scan_string r with
      | Some (x, r') => Ok (JString x) r'
      | None => Fail Malformed
      end
  | None =>
  match expect "{" s with
  | Some r =>
      if (d =? 0)%N then Fail TooDeep else
      match expect "}" (skip_ws r) with
      | Some r' => Ok (JObject []) r'
      | None =>
          match expect dquote (skip_ws r) with
          | Some r' =>
              match parse_members f (N.pred d) r' with
              | Ok pairs r'' => Ok (JObject (dict_of_pairs pairs)) r''
              | Fail e => Fail e
              end
          | None => Fail Malformed
          end
      end
  | None =>
  match expect "[" s with
  | Some r =>
      if (d =? 0)%N then Fail TooDeep else
      match expect "]" (skip_ws r) with
      | Some r' => Ok (JArray []) r'
      | None =>
          match parse_elements f (N.pred d) (skip_ws r) with
          | Ok items r' => Ok (JArray items) r'
          | Fail e => Fail e
          end
      end
  | None => scan_atom s
  end end end.
Proof. reflexivity. Qed.

Lemma parse_elements_eq (f : nat) (d : N) (s : string) :
  parse_elements (S f) d s =
  match parse_value f d s with
  | Ok v r =>
      match expect "]" (skip_ws r) with
      | Some r' => Ok [v] r'
      | None =>
          match expect "," (skip_ws r) with
          | Some r' =>
              match parse_elements f d (skip_ws r') with
              | Ok vs r'' => Ok (v :: vs) r''
              | Fail e => Fail e
              end
          | None => Fail Malformed
          end
      end
  | Fail e => Fail e
  end.
Proof. reflexivity. Qed.

Lemma parse_members_eq (f : nat) (d : N) (s : string) :
  parse_members (S f) d s =
  match scan_string s with
  | Some (key, r) =>
      match expect ":" (skip_ws r) with
      | Some r1 =>
          match parse_value f d (skip_ws r1) with
          | Ok v r2 =>
              match expect "}" (skip_ws r2) with
              | Some r3 => Ok [(key, v)] r3
              | None =>
                  match expect "," (skip_ws r2) with
                  | Some r3 =>
                      match expect dquote (skip_ws r3) with
                      | Some r4 =>
                          match parse_members f d r4 with
                          | Ok kvs r5 => Ok ((key, v) :: kvs) r5
                          | Fail e => Fail e
                          end
                      | None => Fail Malformed
                      end
                  | None => Fail Malformed
                  end
              end
          | Fail e => Fail e
          end
      | None => Fail Malformed
      end
  | None => Fail Malformed
  end.
Proof. reflexivity. Qed.

(** Every parser consumes input. *)
Lemma parse_consumes (f : nat) :
  forall (d : N) (s : string),
    (forall v r, parse_value f d s = Ok v r ->
                 String.length r < String.length s)
    /\ (forall vs r, parse_elements f d s = Ok vs r ->
                     String.length r < String.length s)
    /\ (forall kvs r, parse_members f d s = Ok kvs r ->
                      String.length r < String.length s).
Proof.
  induction f as [|f IH]; intros d s; [repeat split; discriminate|].
  split; [|split].
  - intros v r. rewrite parse_value_eq.
    destruct (expect dquote s) as [r0|] eqn:E0.
    { apply expect_length in E0.
      destruct (scan_string r0) as [[x r']|] eqn:E1; [|discriminate].
      apply (scan_string_length _ _ _ _ (le_n _)) in E1.
      intros [= _ <-]. lia. }
    destruct (expect "{" s) as [r0|] eqn:E1.
    { apply expect_length in E1. pose proof (skip_ws_length r0).
      destruct (d =? 0)%N; [discriminate|].
      destruct (expect "}" (skip_ws r0)) as [r1|] eqn:E2.
      { apply expect_length in E2. intros [= _ <-]. lia. }
      destruct (expect dquote (skip_ws r0)) as [r1|] eqn:E3; [|discriminate].
      apply expect_length in E3.
      destruct (parse_members f (N.pred d) r1) as [pairs r2|] eqn:E4;
        [|discriminate].
      apply (IH (N.pred d) r1) in E4. intros [= _ <-]. lia. }
    destruct (expect "[" s) as [r0|] eqn:E2; [|apply scan_atom_length].
    apply expect_length in E2. pose proof (skip_ws_length r0).
    destruct (d =? 0)%N; [discriminate|].
    destruct (expect "]" (skip_ws r0)) as [r1|] eqn:E3.
    { apply expect_length in E3. intros [= _ <-]. lia. }
    destruct (parse_elements f (N.pred d) (skip_ws r0)) as [items r1|] eqn:E4;
      [|discriminate].
    apply (IH (N.pred d) (skip_ws r0)) in E4. intros [= _ <-]. lia.
  - intros vs r. rewrite parse_elements_eq.
    destruct (parse_value f d s) as [v r0|] eqn:E0; [|discriminate].
    apply (IH d s) in E0. pose proof (skip_ws_length r0).
    destruct (expect "]" (skip_ws r0)) as [r1|] eqn:E1.
    { apply expect_length in E1. intros [= _ <-]. lia. }
    destruct (expect "," (skip_ws r0)) as [r1|] eqn:E2; [|discriminate].
    apply expect_length in E2. pose proof (skip_ws_length r1).
    destruct (parse_elements f d (skip_ws r1)) as [vs' r2|] eqn:E3;
      [|discriminate].
    apply (IH d (skip_ws r1)) in E3. intros [= _ <-]. lia.
  - intros kvs r. rewrite parse_members_eq.
    destruct (scan_string s) as [[key r0]|] eqn:E0; [|discriminate].
    apply (scan_string_length _ _ _ _ (le_n _)) in E0.
    pose proof (skip_ws_length r0).
    destruct (expect ":" (skip_ws r0)) as [r1|] eqn:E1; [|discriminate].
    apply expect_length in E1. pose proof (skip_ws_length r1).
    destruct (parse_value f d (skip_ws r1)) as [v r2|] eqn:E2;
      [|discriminate].
    apply (IH d (skip_ws r1)) in E2. pose proof (skip_ws_length r2).
    destruct (expect "}" (skip_ws r2)) as [r3|] eqn:E3.
    { apply expect_length in E3. intros [= _ <-]. lia. }
    destruct (expect "," (skip_ws r2)) as [r3|] eqn:E4; [|discriminate].
    apply expect_length in E4. pose proof (skip_ws_length r3).
    destruct (expect dquote (skip_ws r3)) as [r4|] eqn:E5; [|discriminate].
    apply expect_length in E5.
    destruct (parse_members f d r4) as [kvs' r5|] eqn:E6; [|discriminate].
    apply (IH d r4) in E6. intros [= _ <-]. lia.
Qed.

(** Fuel above twice the length of the input is never exhausted: more fuel
    gives the same result. *)
Lemma fuel_enough (f : nat) :
  forall (g : nat) (d : N) (s : string),
    f <= g ->
    (2 * String.length s + 1 <= f -> parse_value f d s = parse_value g d s)
    /\ (2 * String.length s + 2 <= f ->
        parse_elements f d s = parse_elements g d s)
    /\ (2 * String.length s + 2 <= f ->
        parse_members f d s = parse_members g d s).
Proof.
  induction f as [|f IH]; intros g d s Hg; [repeat split; lia|].
  destruct g as [|g]; [lia|].
  assert (IHv : forall d' t, 2 * String.length t + 1 <= f ->
                             parse_value f d' t = parse_value g d' t)
    by (intros d' t; apply IH; lia).
  assert (IHe : forall d' t, 2 * String.length t + 2 <= f ->
                             parse_elements f d' t = parse_elements g d' t)
    by (intros d' t; apply IH; lia).
  assert (IHm : forall d' t, 2 * String.length t + 2 <= f ->
                             parse_members f d' t = parse_members g d' t)
    by (intros d' t; apply IH; lia).
  split; [|split]; intros Hf.
  - rewrite !parse_value_eq.
    destruct (expect dquote s) as [r0|] eqn:E0; [reflexivity|].
    destruct (expect "{" s) as [r0|] eqn:E1.
    { apply expect_length in E1. pose proof (skip_ws_length r0).
      destruct (d =? 0)%N; [reflexivity|].
      destruct (expect "}" (skip_ws r0)); [reflexivity|].
      destruct (expect dquote (skip_ws r0)) as [r1|] eqn:E3; [|reflexivity].
      apply expect_length in E3. now rewrite IHm by lia. }
    destruct (expect "[" s) as [r0|] eqn:E2; [|reflexivity].
    apply expect_length in E2. pose proof (skip_ws_length r0).
    destruct (d =? 0)%N; [reflexivity|].
    destruct (expect "]" (skip_ws r0)); [reflexivity|].
    now rewrite IHe by lia.
  - rewrite !parse_elements_eq. rewrite IHv by lia.
    destruct (parse_value g d s) as [v r0|] eqn:E0; [|reflexivity].
    apply (parse_consumes g d s) in E0. pose proof (skip_ws_length r0).
    destruct (expect "]" (skip_ws r0)); [reflexivity|].
    destruct (expect "," (skip_ws r0)) as [r1|] eqn:E2; [|reflexivity].
    apply expect_length in E2. pose proof (skip_ws_length r1).
    now rewrite IHe by lia.
  - rewrite !parse_members_eq.
    destruct (scan_string s) as [[key r0]|] eqn:E0; [|reflexivity].
    apply (scan_string_length _ _ _ _ (le_n _)) in E0.
    pose proof (skip_ws_length r0).
    destruct (expect ":" (skip_ws r0)) as [r1|] eqn:E1; [|reflexivity].
    apply expect_length in E1. pose proof (skip_ws_length r1).
    rewrite IHv by lia.
    destruct (parse_value g d (skip_ws r1)) as [v r2|] eqn:E2; [|reflexivity].
    apply (parse_consumes g d (skip_ws r1)) in E2.
    pose proof (skip_ws_length r2).
    destruct (expect "}" (skip_ws r2)); [reflexivity|].
    destruct (expect "," (skip_ws r2)) as [r3|] eqn:E4; [|reflexivity].
    apply expect_length in E4. pose proof (skip_ws_length r3).
    destruct (expect dquote (skip_ws r3)) as [r4|] eqn:E5; [|reflexivity].
    apply expect_length in E5. now rewrite IHm by lia.
Qed.

(** [loads] does not depend on its fuel: a text is rejected only for its
    syntax, for the length of an integer or for its nesting. *)
Lemma loads_any_fuel (d : N) (s : string) (g : nat) :
  2 * String.length s + 2 <= g ->
  loads d s =
  match parse_value g d (skip_ws s) with
  | Ok v r =>
      match skip_ws r with
      | EmptyString => Decoded v
      | _ => Raises Malformed
      end
  | Fail e => Raises e
  end.
Proof.
  intros Hg. unfold loads. pose proof (skip_ws_length s).
  destruct (fuel_enough (2 * String.length s + 2) g d (skip_ws s) Hg)
    as [-> _]; [reflexivity|lia].
Qed.

(** *** Decoded values are sound *)

Lemma scan_literal_value (lit : string) (v v' : value) (s r : string) :
  scan_literal lit v s = Ok v' r -> v' = v.
Proof.
  unfold scan_literal. destruct (prefix lit s); [|discriminate].
  now intros [= <- _].
Qed.

Lemma scan_atom_sound (s : string) (v : value) (r : string) :
  scan_atom s = Ok v r -> sound_value v = true.
Proof.
  assert (Hnum : match scan_number s with
                 | Ok lit r => Ok (JNumber lit) r
                 | Fail Malformed =>
                     scan_literal "-Infinity" (JNumber "-Infinity") s
                 | Fail f => Fail f
                 end = Ok v r -> sound_value v = true).
  { destruct (scan_number s) as [lit r'|[]]; try discriminate.
    - now intros [= <- _].
    - intros H. apply scan_literal_value in H. now subst. }
  unfold scan_atom. destruct s as [|c s']; [exact Hnum|].
  destruct c as [[] [] [] [] [] [] [] []];
    first [exact Hnum
          |intros H; apply scan_literal_value in H; now subst].
Qed.

Lemma dict_set_sound (k : pystr) (v : value) (d : dict) :
  sound_value v = true ->
  forallb (fun kv => sound_value (snd kv)) d = true ->
  forallb (fun kv => sound_value (snd kv)) (dict_set k v d) = true.
Proof.
  intros Hv. induction d as [|[k' v'] d IH]; cbn [dict_set forallb snd].
  - intros _. now rewrite Hv.
  - intros H. apply andb_prop in H as [Hv' Hd].
    destruct (str_eqb k k'); cbn [forallb snd].
    + now rewrite Hv, Hd.
    + now rewrite Hv', IH.
Qed.

Lemma dict_of_pairs_sound (pairs : list (pystr * value)) :
  forallb (fun kv => sound_value (snd kv)) pairs = true ->
  forallb (fun kv => sound_value (snd kv)) (dict_of_pairs pairs) = true.
Proof.
  unfold dict_of_pairs.
  assert (H : forall acc : dict,
             forallb (fun kv => sound_value (snd kv)) acc = true ->
             forallb (fun kv => sound_value (snd kv)) pairs = true ->
             forallb (fun kv => sound_value (snd kv))
               (fold_left (fun d kv => dict_set (fst kv) (snd kv) d)
                  pairs acc) = true).
  { induction pairs as [|[k v] pairs IH]; intros acc Hacc Hp;
      cbn [fold_left]; [exact Hacc|].
    cbn [forallb snd] in Hp. apply andb_prop in Hp as [Hv Hp].
    apply IH; [|exact Hp]. now apply dict_set_sound. }
  now apply H.
Qed.

Lemma dict_get_sound (k : pystr) (d : dict) (v : value) :
  forallb (fun kv => sound_value (snd kv)) d = true ->
  dict_get k d = Some v -> sound_value v = true.
Proof.
  induction d as [|[k' v'] d IH]; cbn [dict_get forallb snd];
    [discriminate|].
  intros H. apply andb_prop in H as [Hv Hd].
  destruct (str_eqb k k'); [now intros [= <-]|now apply IH].
Qed.

Lemma parse_sound (f : nat) :
  forall (d : N) (s : string),
    (forall v r, parse_value f d s = Ok v r -> sound_value v = true)
    /\ (forall vs r, parse_elements f d s = Ok vs r ->
                     forallb sound_value vs = true)
    /\ (forall kvs r, parse_members f d s = Ok kvs r ->
                      forallb (fun kv => sound_value (snd kv)) kvs = true).
Proof.
  induction f as [|f IH]; intros d s; [repeat split; discriminate|].
  split; [|split].
  - intros v r. rewrite parse_value_eq.
    destruct (expect dquote s) as [r0|].
    { destruct (scan_string r0) as [[x r']|] eqn:E1; [|discriminate].
      intros [= <- _]. cbn [sound_value].
      now apply scan_string_sound_string in E1. }
    destruct (expect "{" s) as [r0|].
    { destruct (d =? 0)%N; [discriminate|].
      destruct (expect "}" (skip_ws r0)); [now intros [= <- _]|].
      destruct (expect dquote (skip_ws r0)) as [r1|]; [|discriminate].
      destruct (parse_members f (N.pred d) r1) as [pairs r2|] eqn:E4;
        [|discriminate].
      apply (IH (N.pred d) r1) in E4. intros [= <- _]. cbn [sound_value].
      now apply dict_of_pairs_sound. }
    destruct (expect "[" s) as [r0|]; [|apply scan_atom_sound].
    destruct (d =? 0)%N; [discriminate|].
    destruct (expect "]" (skip_ws r0)); [now intros [= <- _]|].
    destruct (parse_elements f (N.pred d) (skip_ws r0)) as [items r1|] eqn:E4;
      [|discriminate].
    apply (IH (N.pred d) (skip_ws r0)) in E4. now intros [= <- _].
  - intros vs r. rewrite parse_elements_eq.
    destruct (parse_value f d s) as [v r0|] eqn:E0; [|discriminate].
    apply (IH d s) in E0.
    destruct (expect "]" (skip_ws r0));
      [intros [= <- _]; cbn [forallb]; now rewrite E0|].
    destruct (expect "," (skip_ws r0)) as [r1|]; [|discriminate].
    destruct (parse_elements f d (skip_ws r1)) as [vs' r2|] eqn:E3;
      [|discriminate].
    apply (IH d (skip_ws r1)) in E3. intros [= <- _]. cbn [forallb].
    now rewrite E0, E3.
  - intros kvs r. rewrite parse_members_eq.
    destruct (scan_string s) as [[key r0]|]; [|discriminate].
    destruct (expect ":" (skip_ws r0)) as [r1|]; [|discriminate].
    destruct (parse_value f d (skip_ws r1)) as [v r2|] eqn:E2;
      [|discriminate].
    apply (IH d (skip_ws r1)) in E2.
    destruct (expect "}" (skip_ws r2));
      [intros [= <- _]; cbn [forallb snd]; now rewrite E2|].
    destruct (expect "," (skip_ws r2)) as [r3|]; [|discriminate].
    destruct (expect dquote (skip_ws r3)) as [r4|]; [|discriminate].
    destruct (parse_members f d r4) as [kvs' r5|] eqn:E6; [|discriminate].
    apply (IH d r4) in E6. intros [= <- _]. cbn [forallb snd].
    now rewrite E2, E6.
Qed.

(** Every string of a decoded value is sound. *)
Lemma loads_sound (d : N) (s : string) (v : value) :
  loads d s = Decoded v -> sound_value v = true.
Proof.
  unfold loads.
  destruct (parse_value _ d (skip_ws s)) as [v' r|] eqn:E; [|discriminate].
  apply parse_sound in E. destruct (skip_ws r); [|discriminate].
  now intros [= <-].
Qed.

(** *** Ledger documents *)

Lemma scan_encode_string (x : pystr) (rest : string) :
  encode_string x ++ rest = String dquote (escape x ++ String dquote rest).
Proof.
  unfold encode_string. simpl. now rewrite append_assoc.
Qed.

Lemma skip_ws_spaces (n : nat) (t : string) :
  skip_ws (spaces n ++ t) = skip_ws t.
Proof. induction n as [|n IH]; simpl; [reflexivity|exact IH]. Qed.

Lemma skip_ws_newline_indent (n : nat) (t : string) :
  skip_ws (newline_indent n ++ t) = skip_ws t.
Proof. exact (skip_ws_spaces (2 * n) t). Qed.

Lemma parse_value_string (f : nat) (d : N) (x : pystr) (rest : string) :
  sound x = true ->
  parse_value (S f) d (encode_string x ++ rest) = Ok (JString x) rest.
Proof.
  intros Hx. rewrite scan_encode_string. cbn [parse_value expect].
  change (Ascii.eqb dquote dquote) with true. cbv iota.
  now rewrite scan_string_escape.
Qed.

Lemma skip_ws_join (s t : string) (y : pystr) (xs : list pystr) :
  skip_ws (join s (map encode_string (y :: xs)) ++ t)
  = join s (map encode_string (y :: xs)) ++ t.
Proof. destruct xs; reflexivity. Qed.

Lemma parse_string_items (l : nat) (d : N) (xs : list pystr) :
  forall (x : pystr) (fuel : nat) (tail : string),
    forallb sound (x :: xs) = true ->
    List.length xs + 2 <= fuel ->
    parse_elements fuel d
      (join ("," ++ newline_indent (S l)) (map encode_string (x :: xs))
       ++ newline_indent l ++ String "]" tail)
    = Ok (map JString (x :: xs)) tail.
Proof.
  induction xs as [|y xs IH]; intros x fuel tail Hs Hf;
    cbn [forallb] in Hs; apply andb_prop in Hs as [Hx Hs].
  - destruct fuel as [|[|f]]; [simpl in Hf; lia..|].
    rewrite parse_elements_eq. simpl join. simpl map.
    rewrite parse_value_string, skip_ws_newline_indent by exact Hx.
    reflexivity.
  - destruct fuel as [|[|f]]; [simpl in Hf; lia..|].
    rewrite parse_elements_eq.
    change (join ?s (map encode_string (x :: y :: xs)))
      with (encode_string x ++ s ++ join s (map encode_string (y :: xs))).
    rewrite !append_assoc.
    rewrite parse_value_string by exact Hx.
    change ("," ++ ?t) with (String ","%char t).
    change (skip_ws (String ","%char ?t)) with (String ","%char t).
    cbn [expect].
    change (Ascii.eqb "]" ",") with false.
    change (Ascii.eqb "," ",") with true.
    cbv iota.
    rewrite skip_ws_newline_indent, skip_ws_join, IH
      by (try exact Hs; simpl in Hf |- *; lia).
    reflexivity.
Qed.

Lemma map_encode_strings (l : nat) (xs : list pystr) :
  map (encode l) (map JString xs) = map encode_string xs.
Proof. induction xs as [|x xs IH]; simpl; [reflexivity|now rewrite IH]. Qed.

Lemma encode_string_array (l : nat) (x : pystr) (xs : list pystr) :
  encode l (JArray (map JString (x :: xs))) =
  "[" ++ newline_indent (S l)
  ++ join ("," ++ newline_indent (S l)) (map encode_string (x :: xs))
  ++ newline_indent l ++ "]".
Proof.
  change (encode l (JArray (map JString (x :: xs)))) with
    ("[" ++ newline_indent (S l)
     ++ join ("," ++ newline_indent (S l))
          (map (encode (S l)) (map JString (x :: xs)))
     ++ newline_indent l ++ "]").
  now rewrite map_encode_strings.
Qed.

Lemma parse_value_string_array (l : nat) (d : N) (xs : list pystr)
    (fuel : nat) (tail : string) :
  (0 < d)%N ->
  forallb sound xs = true ->
  List.length xs + 3 <= fuel ->
  parse_value fuel d (encode l (JArray (map JString xs)) ++ tail)
  = Ok (JArray (map JString xs)) tail.
Proof.
  intros Hd Hs Hf. destruct fuel as [|f]; [lia|].
  assert (Ed : (d =? 0)%N = false) by (apply N.eqb_neq; lia).
  destruct xs as [|x xs].
  { change (encode l (JArray (map JString [])) ++ tail)
      with (String "["%char (String "]"%char tail)).
    cbn [parse_value expect skip_ws is_ws].
    change (Ascii.eqb dquote "[") with false.
    change (Ascii.eqb "{" "[") with false.
    change (Ascii.eqb "[" "[") with true.
    cbv iota. rewrite Ed. reflexivity. }
  rewrite encode_string_array, !append_assoc.
  change ("[" ++ ?t) with (String "["%char t).
  cbn [parse_value expect].
  change (Ascii.eqb dquote "[") with false.
  change (Ascii.eqb "{" "[") with false.
  change (Ascii.eqb "[" "[") with true.
  cbv iota. rewrite Ed.
  rewrite skip_ws_newline_indent, skip_ws_join.
  replace (expect "]" (join ("," ++ newline_indent (S l))
                         (map encode_string (x :: xs))
                       ++ newline_indent l ++ "]" ++ tail))
    with (@None string) by (destruct xs; reflexivity).
  change ("]" ++ tail) with (String "]" tail).
  rewrite parse_string_items by (try exact Hs; simpl in Hf |- *; lia).
  reflexivity.
Qed.

Lemma array_length (l : nat) (xs : list pystr) :
  List.length xs <= String.length (encode l (JArray (map JString xs))).
Proof.
  destruct xs as [|x xs]; [simpl; lia|].
  rewrite encode_string_array, !length_append.
  assert (H : forall s ys,
            List.length ys <= String.length (join s (map encode_string ys))).
  { intros s ys. induction ys as [|y ys IH]; [simpl; lia|].
    destruct ys as [|z ys]; [simpl; lia|].
    change (join s (map encode_string (y :: z :: ys)))
      with (encode_string y ++ s ++ join s (map encode_string (z :: ys))).
    rewrite !length_append. simpl String.length at 1.
    simpl List.length in *. lia. }
  specialize (H ("," ++ newline_indent (S l)) (x :: xs)). lia.
Qed.

(** The decoder reads back every ledger document that the encoder wrote,
    when its strings are sound and two nested containers fit under the
    recursion limit. *)
Lemma loads_dumps_ledger (d : N) (xs : list pystr) (stamp : pystr) :
  (2 <= d)%N ->
  forallb sound xs = true ->
  sound stamp = true ->
  loads d (dumps (JObject [(codes "processed", JArray (map JString xs));
                           (codes "last_updated", JString stamp)]))
  = Decoded (JObject [(codes "processed", JArray (map JString xs));
                      (codes "last_updated", JString stamp)]).
Proof.
  intros Hd Hxs Hstamp. unfold loads, dumps.
  assert (Ed : (d =? 0)%N = false) by (apply N.eqb_neq; lia).
  set (arr := JArray (map JString xs)).
  change (encode 0 (JObject [(codes "processed", arr);
                             (codes "last_updated", JString stamp)]))
    with ("{" ++ newline_indent 1
          ++ ((encode_string "processed" ++ ": " ++ encode 1 arr)
              ++ ("," ++ newline_indent 1)
              ++ (encode_string "last_updated" ++ ": "
                  ++ encode_string stamp))
          ++ newline_indent 0 ++ "}").
  set (text := "{" ++ _).
  assert (Hlen : List.length xs + 5 <= 2 * String.length text + 2).
  { subst text. rewrite !length_append.
    pose proof (array_length 1 xs). fold arr in H.
    change (String.length "{") with 1. change (String.length "}") with 1. lia. }
  destruct (2 * String.length text + 2) as [|[|f]] eqn:E; [lia..|].
  subst text.
  rewrite !append_assoc.
  change (skip_ws ("{" ++ ?t)) with (String "{"%char t).
  cbn [parse_value expect].
  change (Ascii.eqb dquote "{") with false.
  change (Ascii.eqb "{" "{") with true.
  cbv iota. rewrite Ed.
  rewrite skip_ws_newline_indent.
  rewrite scan_encode_string.
  change (skip_ws (String dquote ?t)) with (String dquote t).
  cbn [expect].
  change (Ascii.eqb "}" dquote) with false.
  change (Ascii.eqb dquote dquote) with true.
  cbv iota.
  rewrite parse_members_eq, scan_string_escape by apply sound_codes.
  change (skip_ws (": " ++ ?t)) with (String ":"%char (String " "%char t)).
  cbn [expect]. change (Ascii.eqb ":" ":") with true. cbv iota.
  change (skip_ws (String " " (encode 1 arr ++ ?t)))
    with (skip_ws (encode 1 arr ++ t)).
  assert (Hsk : forall t, skip_ws (encode 1 arr ++ t) = encode 1 arr ++ t)
    by (intros t; subst arr; destruct xs; reflexivity).
  rewrite Hsk. subst arr.
  rewrite parse_value_string_array by (try exact Hxs; lia).
  change (skip_ws ("," ++ ?t)) with (String ","%char t).
  cbn [expect].
  change (Ascii.eqb "}" ",") with false.
  change (Ascii.eqb "," ",") with true.
  cbv iota.
  rewrite skip_ws_newline_indent, scan_encode_string.
  change (skip_ws (String dquote ?t)) with (String dquote t).
  cbn [expect]. change (Ascii.eqb dquote dquote) with true. cbv iota.
  destruct f as [|[|f]]; [lia..|].
  rewrite parse_members_eq, scan_string_escape by apply sound_codes.
  change (skip_ws (": " ++ ?t)) with (String ":"%char (String " "%char t)).
  cbn [expect]. change (Ascii.eqb ":" ":") with true. cbv iota.
  rewrite scan_encode_string.
  change (skip_ws (String " " (String dquote ?t))) with (String dquote t).
  rewrite <- scan_encode_string, parse_value_string by exact Hstamp.
  reflexivity.
Qed.

End JsonFacts.


(** ** Removal of the code fence *)

Module FenceFacts.
Import PyStr Json StrFacts Invoice Spec.
Local Open Scope list_scope.
Local Open Scope string_scope.
Local Open Scope nat_scope.















End FenceFacts.


(** ** The processor *)

Module InvoiceFacts.
Import PyStr Json StrFacts JsonFacts FenceFacts Invoice Spec.
Local Open Scope string_scope.
Local Open Scope list_scope.
Local Open Scope nat_scope.

Ltac fields :=
  cbn [processed_count failed_count results progress_file output_csv
       api_calls sleeps log ticks timeline with_processed_count
       with_failed_count with_results with_progress_file with_output_csv
       with_api_calls with_sleeps with_log with_ticks with_timeline
       invoked slept new_processor fst snd] in *.

Ltac run :=
  unfold logger, time_sleep, append_row, open_csv_a in *;
  unfold bind, ret, raise, modify in *;
  cbv beta iota in *.

Lemma attempt_eq (env : environment) (image : string) (st : state) :
  attempt env image st =
  if image_open env image
  then (reply_outcome image
          (generate_content env (List.length (api_calls st)) image),
        invoked image st)
  else (Raise OSError, st).
Proof.
  unfold attempt, open_image, call_model, json_loads, set_invoice_file.
  run. destruct (image_open env image); [|reflexivity].
  destruct (generate_content env _ image) as [text|d|]; cbn [reply_outcome];
    try reflexivity.
  destruct (loads _ _) as [[]|[]]; reflexivity.
Qed.

Lemma dict_set_nonempty (k : pystr) (v : value) (d : dict) :
  dict_set k v d <> [].
Proof.
  destruct d as [|[k' v'] d]; cbn [dict_set]; [discriminate|].
  destruct (str_eqb k k'); discriminate.
Qed.

Lemma reply_outcome_nonempty (image : string) (r : reply) (d : dict) :
  reply_outcome image r = Return d -> d <> [].
Proof.
  unfold reply_outcome. destruct r; try discriminate.
  destruct (loads _ _) as [[]|[]]; try discriminate.
  intros [= <-]. apply dict_set_nonempty.
Qed.

Lemma attempts_spec (env : environment) (image : string) (remaining : nat) :
  forall (attempt_no : nat) (st : state),
  exists (r : option dict) (st' : state) (calls : list string)
         (naps : list sleep_call),
    attempts env image attempt_no remaining st = (Return r, st')
    /\ same_store st st'
    /\ api_calls st' = api_calls st ++ calls
    /\ List.length calls <= remaining
    /\ Forall (eq image) calls
    /\ sleeps st' = sleeps st ++ naps
    /\ Forall is_backoff naps
    /\ (forall d, r = Some d -> d <> []).
Proof.
  induction remaining as [|n IH]; intros a st.
  - exists None, st, [], []. cbn [attempts]. run. unfold same_store.
    rewrite !app_nil_r. repeat split; auto; try discriminate.
  - cbn [attempts]. rewrite attempt_eq.
    destruct (image_open env image).
    + destruct (reply_outcome image _) as [d|e] eqn:E.
      * exists (Some d), (invoked image st),
          [image], [].
        unfold same_store. fields. rewrite app_nil_r.
        repeat split; auto; try (simpl; lia).
        intros d' [= <-]. eapply reply_outcome_nonempty; eassumption.
      * assert (Hstop : forall (l : list log_record),
                  exists (r : option dict) (st' : state) (calls : list string)
                         (naps : list sleep_call),
                    (Return (@None dict),
                     with_log l (invoked image st))
                    = (Return r, st')
                    /\ same_store st st'
                    /\ api_calls st' = api_calls st ++ calls
                    /\ List.length calls <= S n
                    /\ Forall (eq image) calls
                    /\ sleeps st' = sleeps st ++ naps
                    /\ Forall is_backoff naps
                    /\ (forall d, r = Some d -> d <> [])).
        { intros l. eexists None, _, [image], []. split; [reflexivity|].
          unfold same_store. fields. rewrite app_nil_r.
          repeat split; auto; try (simpl; lia); discriminate. }
        destruct e; run; fields; try apply Hstop.
        destruct (a <? max_retries - 1); [|apply Hstop].
        match goal with
        | |- context [attempts env image (S a) n ?s] =>
            destruct (IH (S a) s)
              as (r & st' & calls & naps & Hrun & Hsame & Hcalls & Hlen
                  & Hall & Hnaps & Hback & Hne)
        end.
        exists r, st', (image :: calls), (Backoff (match retry_delay with
                                              | Some seconds => seconds
                                              | None => 60 end) :: naps).
        unfold same_store in *. fields.
        rewrite Hrun, Hcalls, Hnaps, <- !app_assoc. 
        repeat split; try tauto; try (simpl; lia); constructor; simpl; auto.
    + exists None, (with_log (log st ++ [ProcessingError image]) st), [], [].
      run. unfold same_store. fields. rewrite !app_nil_r.
      repeat split; auto; try (simpl; lia); discriminate.
Qed.

(** *** The store *)

Lemma with_output_csv_same (st : state) (f : option (list csv_row)) :
  output_csv st = f -> with_output_csv f st = st.
Proof. intros <-. now destruct st. Qed.

Lemma write_results_ok (rs : list dict) :
  Forall (fun r => writable r = true) rs ->
  forall (st : state) (rows : list csv_row),
    output_csv st = Some rows ->
    write_results rs st
    = (Return tt, with_output_csv (Some (rows ++ rows_of rs)) st).
Proof.
  induction 1 as [|r rs Hr _ IH]; intros st rows Hcsv.
  - cbn [write_results rows_of flat_map]. rewrite app_nil_r. unfold ret.
    now rewrite with_output_csv_same.
  - cbn [write_results rows_of flat_map]. unfold writable in Hr.
    unfold flatten_row. fold (rows_of rs).
    unfold flat in *.
    destruct (dict_get "items_found" r) as [[]|];
      try destruct (strings_of items); try discriminate;
      (unfold writerow; run;
       match type of Hr with
       | context [wrong_fields ?d] =>
           destruct (wrong_fields d); [|discriminate]
       end;
       rewrite Hcsv;
       erewrite IH by (fields; reflexivity);
       fields; now rewrite <- app_assoc).
Qed.

Lemma save_results_ok (st : state) :
  Forall (fun r => writable r = true) (results st) ->
  save_results st = (Return tt, stored st).
Proof.
  intros Hw. unfold save_results, stored.
  destruct (results st) as [|r rs] eqn:E; [reflexivity|].
  unfold file_exists. run.
  destruct (output_csv st) as [[|row rows]|] eqn:Ecsv;
    (erewrite write_results_ok
       by (try exact Hw; fields; try rewrite Ecsv; reflexivity));
    fields; reflexivity.
Qed.

(** *** The ledger *)

Lemma strings_of_map (xs : list pystr) :
  strings_of (map JString xs) = Some xs.
Proof. induction xs as [|x xs IH]; simpl; [reflexivity|now rewrite IH]. Qed.

(** A list of names is a list of sound strings. *)
Lemma sound_names (names : list string) :
  forallb sound (map codes names) = true.
Proof.
  induction names as [|x names IH]; [reflexivity|].
  cbn [map forallb]. now rewrite sound_codes, IH.
Qed.

Lemma load_saved (st : state) (processed : list pystr) (stamp : string) :
  forallb sound processed = true ->
  progress_file st = Some (dumps (ledger_document processed stamp)) ->
  load_progress st = (Return processed, st).
Proof.
  intros Hs H. unfold load_progress. rewrite H. unfold ledger_document.
  rewrite loads_dumps_ledger
    by (try exact Hs; try apply sound_codes; discriminate).
  change (dict_get (codes "processed") ?d)
    with (dict_get (codes "processed") d).
  cbn [dict_get]. rewrite str_eqb_refl.
  now rewrite strings_of_map.
Qed.

(** The list that [load_progress] returns holds sound strings only. *)
Lemma strings_of_sound (items : list value) (xs : list pystr) :
  forallb sound_value items = true ->
  strings_of items = Some xs -> forallb sound xs = true.
Proof.
  revert xs. induction items as [|v items IH]; intros xs H E;
    cbn [strings_of] in E; [now injection E as <-|].
  cbn [forallb] in H. apply andb_prop in H as [Hv H].
  destruct v; try discriminate.
  destruct (strings_of items) as [ys|]; [|discriminate].
  injection E as <-. cbn [forallb]. cbn [sound_value] in Hv.
  now rewrite Hv, (IH ys H eq_refl).
Qed.

Lemma load_progress_sound (st st' : state) (processed : list pystr) :
  load_progress st = (Return processed, st') ->
  forallb sound processed = true.
Proof.
  unfold load_progress. destruct (progress_file st) as [text|];
    [|now intros [= <- _]].
  destruct (loads ledger_depth text) as [v|f] eqn:E; [|discriminate].
  apply loads_sound in E. destruct v; try discriminate.
  cbn [sound_value] in E.
  destruct (dict_get "processed" members) as [v|] eqn:Eg;
    [|now intros [= <- _]].
  apply (dict_get_sound _ _ _ E) in Eg.
  destruct v; try discriminate. cbn [sound_value] in Eg.
  destruct (strings_of items) as [xs|] eqn:Ex; [|discriminate].
  intros [= <- _]. eapply strings_of_sound; eassumption.
Qed.

Lemma save_progress_eq (env : environment) (processed : list pystr)
    (st : state) :
  save_progress env processed st = (Return tt, saved env processed st).
Proof. reflexivity. Qed.

(** *** One iteration *)

Lemma truthy_some (d : dict) : d <> [] -> truthy (Some d) = true.
Proof. destruct d; [congruence|reflexivity]. Qed.

Lemma process_file_failed (env : environment) (total idx : nat)
    (image : string) (processed : list pystr) (st st1 : state)
    (r : option dict) :
  analyze_invoice env image st = (Return r, st1) ->
  truthy r = false ->
  Forall (fun r => writable r = true) (results st1) ->
  process_file env total idx image processed st
  = (Return processed,
     paced total idx
       (stored (saved env processed
                  (with_failed_count (failed_count st1 + 1) st1)))).
Proof.
  intros Ha Ht Hw. unfold process_file, bind at 1. rewrite Ha, Ht.
  run. rewrite save_progress_eq, save_results_ok by exact Hw.
  unfold paced. now destruct (idx <? total).
Qed.

Lemma process_file_succeeded (env : environment) (total idx : nat)
    (image : string) (processed : list pystr) (st st1 : state)
    (data : dict) :
  analyze_invoice env image st = (Return (Some data), st1) ->
  data <> [] ->
  Forall (fun r => writable r = true) (results st1 ++ [data]) ->
  process_file env total idx image processed st
  = (Return (processed ++ [codes image]),
     paced total idx
       (stored (saved env (processed ++ [codes image])
                  (with_processed_count (processed_count st1 + 1)
                     (with_results (results st1 ++ [data]) st1))))).
Proof.
  intros Ha Hd Hw. unfold process_file, bind at 1.
  rewrite Ha, truthy_some by exact Hd.
  run. rewrite save_progress_eq, save_results_ok by exact Hw.
  unfold paced. now destruct (idx <? total).
Qed.


Lemma analyze_quota (env : environment) (image : string) (st : state) :
  image_open env image = true ->
  (forall k, exists d, generate_content env k image = QuotaExceeded d) ->
  exists st1,
    analyze_invoice env image st = (Return None, st1)
    /\ same_store st st1
    /\ api_calls st1 = api_calls st ++ [image; image; image].
Proof.
  intros Hopen Hq. unfold analyze_invoice, max_retries. cbn [attempts].
  rewrite attempt_eq, Hopen.
  destruct (Hq (List.length (api_calls st))) as [d1 ->]. cbn [reply_outcome].
  change (0 <? 3 - 1) with true. run. fields.
  rewrite attempt_eq, Hopen. fields.
  destruct (Hq (List.length (api_calls st ++ [image]))) as [d2 ->].
  cbn [reply_outcome]. change (1 <? 3 - 1) with true. run. fields.
  rewrite attempt_eq, Hopen. fields.
  destruct (Hq (List.length ((api_calls st ++ [image]) ++ [image]))) as [d3 ->].
  cbn [reply_outcome]. change (2 <? 3 - 1) with false. run. fields.
  eexists. split; [reflexivity|]. unfold same_store. fields.
  rewrite <- !app_assoc. repeat split; reflexivity.
Qed.

(** Projections through [paced] and [stored]. *)
Ltac by_cases_paced := intros; unfold paced; destruct (_ <? _); reflexivity.
Ltac by_cases_stored :=
  intros; unfold stored;
  match goal with
  | |- context [match results ?s with _ => _ end] =>
      let E := fresh "E" in
      destruct (results s) eqn:E; fields;
      solve [reflexivity | symmetry; exact E | exact E]
  end.

Lemma paced_processed_count t i st :
  processed_count (paced t i st) = processed_count st.
Proof. by_cases_paced. Qed.
Lemma paced_failed_count t i st :
  failed_count (paced t i st) = failed_count st.
Proof. by_cases_paced. Qed.
Lemma paced_results t i st : results (paced t i st) = results st.
Proof. by_cases_paced. Qed.
Lemma paced_progress_file t i st :
  progress_file (paced t i st) = progress_file st.
Proof. by_cases_paced. Qed.
Lemma paced_output_csv t i st : output_csv (paced t i st) = output_csv st.
Proof. by_cases_paced. Qed.
Lemma paced_api_calls t i st : api_calls (paced t i st) = api_calls st.
Proof. by_cases_paced. Qed.
Lemma paced_ticks t i st : ticks (paced t i st) = ticks st.
Proof. by_cases_paced. Qed.

Lemma stored_processed_count st :
  processed_count (stored st) = processed_count st.
Proof. by_cases_stored. Qed.
Lemma stored_failed_count st : failed_count (stored st) = failed_count st.
Proof. by_cases_stored. Qed.
Lemma stored_results st : results (stored st) = results st.
Proof. by_cases_stored. Qed.
Lemma stored_progress_file st : progress_file (stored st) = progress_file st.
Proof. by_cases_stored. Qed.
Lemma stored_api_calls st : api_calls (stored st) = api_calls st.
Proof. by_cases_stored. Qed.
Lemma stored_sleeps st : sleeps (stored st) = sleeps st.
Proof. by_cases_stored. Qed.
Lemma stored_ticks st : ticks (stored st) = ticks st.
Proof. by_cases_stored. Qed.

Create Rewrite HintDb through.
#[local] Hint Rewrite paced_processed_count paced_failed_count paced_results
  paced_progress_file paced_output_csv paced_api_calls paced_ticks
  stored_processed_count stored_failed_count stored_results
  stored_progress_file stored_api_calls stored_sleeps stored_ticks : through.

Ltac through :=
  autorewrite with through;
  cbn [saved processed_count failed_count results progress_file output_csv
       api_calls sleeps log ticks timeline with_processed_count
       with_failed_count with_results with_progress_file with_output_csv
       with_api_calls with_sleeps with_log with_ticks with_timeline
       new_processor fst snd].

Lemma process_files_quota (env : environment) (total : nat)
    (items : list string) :
  (forall image, In image items -> image_open env image = true) ->
  (forall k image, exists d, generate_content env k image = QuotaExceeded d) ->
  forall (idx : nat) (processed : list pystr) (st : state),
    Forall (fun r => writable r = true) (results st) ->
    exists st',
      process_files env total idx items processed st = (Return processed, st')
      /\ results st' = results st
      /\ failed_count st' = failed_count st + List.length items
      /\ processed_count st' = processed_count st
      /\ api_calls st'
         = api_calls st ++ flat_map (fun i => [i; i; i]) items.
Proof.
  intros Hopen Hq. induction items as [|image rest IH];
    intros idx processed st Hres.
  - exists st. cbn. rewrite app_nil_r, Nat.add_0_r. auto.
  - destruct (analyze_quota env image st) as (st1 & Ha & Hs & Hc);
      [apply Hopen; now left|intros k; apply Hq|].
    destruct Hs as (Hpc & Hfc & Hr1 & _).
    cbn [process_files]. unfold bind at 1.
    erewrite process_file_failed;
      [|exact Ha|reflexivity|now rewrite Hr1].
    match goal with
    | |- context [process_files env total (S idx) rest processed ?s] =>
        destruct (IH (fun i Hi => Hopen i (or_intror Hi)) (S idx) processed s)
          as (st' & Hrun & Hres' & Hfc' & Hpc' & Hc')
    end.
    { through. now rewrite Hr1. }
    exists st'. rewrite Hrun, Hres', Hfc', Hpc', Hc'. through.
    rewrite Hc, Hfc, Hpc, Hr1, <- app_assoc. cbn [flat_map List.length app].
    repeat split; auto. lia.
Qed.

(** C2.  [analyze_invoice] never raises and invokes the capability at most 3
    times, always for the item at hand.  With a capability that signals quota
    exhaustion on every invocation, the loop of [process_all] runs to its end
    over any list of readable items, from any state whose accumulated results
    are writable: every item is invoked exactly 3 times, in order, every item
    is counted as failed and none as processed. *)
Theorem retry_bound (env : environment) :
  (forall (image : string) (st : state),
     exists (r : option dict) (st' : state) (calls : list string),
       analyze_invoice env image st = (Return r, st')
       /\ api_calls st' = api_calls st ++ calls
       /\ List.length calls <= 3
       /\ Forall (eq image) calls)
  /\ ((forall k image,
         exists d, generate_content env k image = QuotaExceeded d) ->
      forall (total idx : nat) (items : list string)
          (processed : list pystr) (st : state),
        (forall image, In image items -> image_open env image = true) ->
        Forall (fun r => writable r = true) (results st) ->
        exists st',
          process_files env total idx items processed st
          = (Return processed, st')
          /\ results st' = results st
          /\ failed_count st' = failed_count st + List.length items
          /\ processed_count st' = processed_count st
          /\ api_calls st'
             = api_calls st ++ flat_map (fun i => [i; i; i]) items).
Proof.
  split.
  - intros image st.
    destruct (attempts_spec env image max_retries 0 st)
      as (r & st' & calls & naps & Hrun & _ & Hc & Hlen & Hall & _).
    exists r, st', calls. auto.
  - intros Hq total idx items processed st Hopen Hres.
    destruct (process_files_quota env total items Hopen Hq idx processed st
                Hres)
      as (st' & Hrun & Hr & Hf & Hp & Hc).
    exists st'. auto.
Qed.

(** Every kind of failure ends the analysis with [None]; the store is
    left alone and the error of the kind is the last record of the log. *)
Lemma failing_none (env : environment) (image : string) (k attempt : nat)
    (kind : failure_kind) :
  failing env image k attempt kind ->
  forall (remaining : nat) (st : state),
    k = List.length (api_calls st) ->
    attempt + S remaining = max_retries ->
    exists (st1 : state) (l : list log_record) (last : log_record),
      attempts env image attempt (S remaining) st = (Return None, st1)
      /\ same_store st st1
      /\ log st1 = l ++ [last]
      /\ failure_record kind image last.
Proof.
  unfold max_retries.
  induction 1 as [k a Hopen|k a Hopen Hr|k a text v Hopen Hr Hl Hv
                 |k a text Hopen Hr Hl|k a text Hopen Hr Hl
                 |k a text Hopen Hr Hl|k d Hopen Hr
                 |k a d kind Hopen Hr Ha Hf IH];
    intros remaining st Hk Hrem; subst k; cbn [attempts];
    unfold max_retries; rewrite attempt_eq, Hopen; rewrite ?Hr; cbn [reply_outcome];
    rewrite ?Hl; cbn [decoding_error].
  - run. eexists _, _, _. split; [reflexivity|]. unfold same_store. fields.
    repeat split.
  - run. eexists _, _, _. split; [reflexivity|]. unfold same_store. fields.
    repeat split.
  - assert (E : match v with
                | JObject d =>
                    Return (dict_set "invoice_file" (JString image) d)
                | _ => Raise TypeError
                end = Raise TypeError)
      by (destruct v; try reflexivity; now destruct (Hv members)).
    rewrite E. run. eexists _, _, _. split; [reflexivity|].
    unfold same_store. fields. repeat split.
  - run. eexists _, _, _. split; [reflexivity|]. unfold same_store. fields.
    repeat split.
  - run. eexists _, _, _. split; [reflexivity|]. unfold same_store. fields.
    repeat split.
  - run. eexists _, (log st ++ [JsonParsingError image]), _.
    split; [reflexivity|]. unfold same_store. fields.
    split; [repeat split|].
    split; [reflexivity|now eexists].
  - change (2 <? 3 - 1) with false. run.
    eexists _, _, _. split; [reflexivity|]. unfold same_store. fields.
    repeat split.
  - replace (a <? 3 - 1) with true by (symmetry; apply Nat.ltb_lt; lia).
    destruct remaining as [|remaining]; [lia|]. run.
    match goal with
    | |- context [attempts env image (S a) (S remaining) ?s] =>
        destruct (IH remaining s) as (st1 & l & last & Hrun & Hs & Hlog & Hrec)
    end.
    { fields. rewrite length_app. cbn [List.length]. lia. }
    { lia. }
    exists st1, l, last. split; [exact Hrun|].
    unfold same_store in *. revert Hs. fields. tauto.
Qed.

(** An analysis gives a record that is not empty, or it meets a failure of
    one of the three kinds. *)
Lemma analysis_classified (env : environment) (image : string)
    (remaining : nat) :
  forall (attempt : nat) (st : state),
    0 < remaining ->
    attempt + remaining = max_retries ->
    (exists (data : dict) (st1 : state),
        attempts env image attempt remaining st = (Return (Some data), st1)
        /\ data <> [])
    \/ exists kind : failure_kind,
         failing env image (List.length (api_calls st)) attempt kind.
Proof.
  unfold max_retries.
  induction remaining as [|n IH]; intros a st Hpos Ha; [lia|].
  cbn [attempts]; unfold max_retries; rewrite attempt_eq.
  destruct (image_open env image) eqn:Hopen;
    [|right; exists UnexpectedError; now apply fails_unreadable].
  destruct (generate_content env (List.length (api_calls st)) image)
    as [text|d|] eqn:Hr;
    [|
     |right; exists UnexpectedError; now apply fails_api_error];
    cbn [reply_outcome].
  - destruct (loads reply_depth (strip_code_fences (strip text)))
      as [v|[]] eqn:Hl;
      [destruct v;
       try (right; exists UnexpectedError;
            eapply fails_no_object; try eassumption; discriminate);
       left; eexists _, _; split; [reflexivity|apply dict_set_nonempty]
      |right; exists MalformedOutput; eapply fails_malformed; eassumption
      |right; exists UnexpectedError; eapply fails_int_too_long; eassumption
      |right; exists UnexpectedError; eapply fails_too_deep; eassumption].
  - destruct (a <? 3 - 1) eqn:Hlt.
    + apply Nat.ltb_lt in Hlt. run.
      match goal with
      | |- context [attempts env image (S a) n ?s] =>
          destruct (IH (S a) s ltac:(lia) ltac:(lia))
            as [(data & st1 & Hrun & Hd)|(kind & Hf)]
      end.
      * left. now exists data, st1.
      * right. exists kind. eapply fails_later; try eassumption.
        revert Hf. fields. rewrite length_app. cbn [List.length].
        now rewrite Nat.add_1_r.
    + apply Nat.ltb_ge in Hlt. right. exists QuotaExhausted.
      replace a with 2 by lia. eapply fails_quota; eassumption.
Qed.

(** C5.  Every analysis gives a record or meets a failure of one of the
    three kinds (quota exhausted at the last attempt, malformed output,
    unexpected error), whatever the capability and the image decoder do.
    For every kind of failure, in every state whose accumulated results are
    writable (every state a run reaches): the analysis returns [None]
    without raising, the error being logged; the iteration increments
    [failed_count] only; the ledger that it writes is the document of the
    unchanged list of processed names, and it reads back as this list; and
    the loop goes on with the next item. *)
Theorem failed_item_left_for_next_run (env : environment) (total idx : nat)
    (image : string) (rest : list string) (processed : list pystr)
    (st : state) :
  Forall (fun r => writable r = true) (results st) ->
  ((exists (data : dict) (st1 : state),
       analyze_invoice env image st = (Return (Some data), st1)
       /\ data <> [])
   \/ exists kind : failure_kind,
        failing env image (List.length (api_calls st)) 0 kind)
  /\ (forall kind : failure_kind,
        failing env image (List.length (api_calls st)) 0 kind ->
        exists (st1 st2 : state) (stamp : string),
          analyze_invoice env image st = (Return None, st1)
          /\ (exists (l : list log_record) (last : log_record),
                 log st1 = l ++ [last] /\ failure_record kind image last)
          /\ process_file env total idx image processed st
             = (Return processed, st2)
          /\ failed_count st2 = failed_count st + 1
          /\ processed_count st2 = processed_count st
          /\ results st2 = results st
          /\ progress_file st2
             = Some (dumps (ledger_document processed stamp))
          /\ (forallb sound processed = true ->
              load_progress st2 = (Return processed, st2))
          /\ process_files env total idx (image :: rest) processed st
             = process_files env total (S idx) rest processed st2).
Proof.
  intros Hw. split; [apply (analysis_classified env image 3 0 st); [lia|reflexivity]|].
  intros kind Hf.
  destruct (failing_none _ _ _ _ _ Hf 2 st eq_refl eq_refl)
    as (st1 & l & last & Hrun & Hs & Hlog & Hrec).
  fold (analyze_invoice env image) in Hrun.
  destruct Hs as (Hpc & Hfc & Hres & _).
  assert (Hstep := process_file_failed env total idx image processed st st1
                     None Hrun eq_refl).
  rewrite Hres in Hstep. specialize (Hstep Hw).
  eexists st1, _, (now_isoformat env (ticks st1)).
  split; [exact Hrun|]. split; [now exists l, last|].
  split; [exact Hstep|].
  split; [through; now rewrite Hfc|].
  split; [through; exact Hpc|].
  split; [through; exact Hres|].
  split; [through; reflexivity|].
  split.
  - intros Hsound. eapply load_saved; [exact Hsound|]. through. reflexivity.
  - cbn [process_files]. unfold bind at 1. now rewrite Hstep.
Qed.

Lemma dict_set_keys (k : pystr) (v v' : value) (d : dict) :
  dict_get k d = Some v -> dict_keys (dict_set k v' d) = dict_keys d.
Proof.
  induction d as [|[k0 v0] d IH]; cbn [dict_get dict_set]; [discriminate|].
  destruct (str_eqb k k0) eqn:E; intros H.
  - apply str_eqb_eq in E. now subst.
  - cbn [dict_keys map fst] in *. f_equal. now apply IH.
Qed.

Lemma unwritable (data : dict) :
  wrong_fields data <> [] -> writable data = false.
Proof.
  intros H. unfold writable, flat.
  destruct (dict_get "items_found" data) as [v|] eqn:E.
  - destruct v; try (destruct (wrong_fields data); [congruence|reflexivity]).
    destruct (strings_of items); [|reflexivity].
    unfold wrong_fields in *. erewrite dict_set_keys by exact E.
    destruct (filter _ _); [congruence|reflexivity].
  - destruct (wrong_fields data); [congruence|reflexivity].
Qed.

Lemma rows_of_cons (r : dict) (rs : list dict) :
  rows_of (r :: rs) = rows_of [r] ++ rows_of rs.
Proof. cbn [rows_of flat_map]. now rewrite app_nil_r. Qed.

Lemma write_results_bad (rs : list dict) (bad : dict) (rest : list dict) :
  Forall (fun r => writable r = true) rs ->
  writable bad = false ->
  forall (st : state) (rows : list csv_row),
    output_csv st = Some rows ->
    exists e,
      write_results (rs ++ bad :: rest) st
      = (Raise e, with_output_csv (Some (rows ++ rows_of rs)) st)
      /\ (e = ValueError \/ e = TypeError).
Proof.
  intros Hw Hbad. induction Hw as [|r rs Hr _ IH]; intros st rows Hcsv.
  - cbn [app write_results rows_of flat_map]. rewrite app_nil_r.
    rewrite with_output_csv_same by exact Hcsv.
    unfold writable, flat in Hbad. unfold flatten_row.
    destruct (dict_get "items_found" bad) as [[]|];
      try destruct (strings_of items);
      try (exists TypeError; split; [reflexivity|now right]);
      (unfold writerow; run;
       match type of Hbad with
       | context [wrong_fields ?d] =>
           destruct (wrong_fields d); [discriminate|]
       end;
       exists ValueError; split; [reflexivity|now left]).
  - cbn [app write_results].
    assert (Hone := write_results_ok [r] (Forall_cons _ Hr (Forall_nil _))
                      st rows Hcsv).
    set (one := rows_of [r]) in *.
    cbn [write_results] in Hone. unfold bind in Hone |- *.
    destruct (flatten_row r st) as [[row|e] st1]; [|discriminate].
    destruct (writerow row st1) as [[[]|e] st2]; [|discriminate].
    unfold ret in Hone. injection Hone as ->.
    destruct (IH (with_output_csv (Some (rows ++ one)) st)
                 (rows ++ one) eq_refl) as (e & Hrun & He).
    exists e. rewrite Hrun. split; [|exact He].
    fields. rewrite (rows_of_cons r rs). fold one.
    now rewrite <- app_assoc.
Qed.

Lemma save_results_bad (st : state) (rs : list dict) (bad : dict) :
  results st = rs ++ [bad] ->
  Forall (fun r => writable r = true) rs ->
  writable bad = false ->
  exists e st',
    save_results st = (Raise e, st')
    /\ (e = ValueError \/ e = TypeError)
    /\ processed_count st' = processed_count st
    /\ failed_count st' = failed_count st
    /\ progress_file st' = progress_file st
    /\ api_calls st' = api_calls st.
Proof.
  intros Hres Hw Hbad. unfold save_results. rewrite Hres.
  destruct (rs ++ [bad]) as [|x xs] eqn:E; [now destruct rs|]. rewrite <- E.
  unfold file_exists. run.
  destruct (output_csv st) as [[|row rows]|] eqn:Ecsv;
    match goal with
    | |- context [write_results _ ?s] =>
        edestruct (write_results_bad rs bad [] Hw Hbad s) as (e & Hrun & He);
          [fields; try rewrite Ecsv; reflexivity|]
    end;
    rewrite Hrun; exists e; eexists; (split; [reflexivity|]);
    fields; auto.
Qed.

(** C10.  When the record parsed for an item has a key outside [fieldnames],
    [save_results] raises ([ValueError] from the writer, or [TypeError] from
    the join of [items_found]) and the loop of [process_all] stops with that
    exception: no later item is attempted, [failed_count] is not incremented,
    and the ledger written just before already lists the item. *)
Theorem extra_field_aborts_run (env : environment) (total idx : nat)
    (image : string) (rest : list string) (processed : list string)
    (st st1 : state) (data : dict) :
  Forall (fun r => writable r = true) (results st) ->
  analyze_invoice env image st = (Return (Some data), st1) ->
  wrong_fields data <> [] ->
  exists (e : exn) (st2 : state),
    process_files env total idx (image :: rest) (map codes processed) st
    = (Raise e, st2)
    /\ (e = ValueError \/ e = TypeError)
    /\ failed_count st2 = failed_count st
    /\ api_calls st2 = api_calls st1
    /\ load_progress st2 = (Return (map codes (processed ++ [image])), st2).
Proof.
  intros Hw Ha Hwrong.
  destruct (attempts_spec env image max_retries 0 st)
    as (r & st' & calls & naps & Hrun & Hs & _ & _ & _ & _ & _ & Hne).
  fold (analyze_invoice env image) in Hrun. rewrite Ha in Hrun.
  injection Hrun as <- <-. destruct Hs as (Hpc & Hfc & Hres & _).
  cbn [process_files]. unfold process_file, bind at 1 2. rewrite Ha.
  rewrite truthy_some by (now apply Hne). run.
  rewrite save_progress_eq.
  match goal with
  | |- context [save_results ?s] =>
      destruct (save_results_bad s (results st1) data) as
        (e & st2 & Hsave & He & Hp2 & Hf2 & Hl2 & Hc2);
        [reflexivity|now rewrite Hres|now apply unwritable|]
  end.
  rewrite Hsave. exists e, st2. split; [reflexivity|].
  revert Hp2 Hf2 Hl2 Hc2. through. intros Hp2 Hf2 Hl2 Hc2.
  repeat split; try assumption; try congruence.
  eapply load_saved; [apply sound_names|].
  rewrite Hl2, map_app. reflexivity.
Qed.

(** *** Iterations in general *)

Lemma flatten_row_pure (r : dict) (st st' : state) (o : outcome dict) :
  flatten_row r st = (o, st') -> st' = st.
Proof.
  unfold flatten_row.
  destruct (dict_get "items_found" r) as [[]|];
    try destruct (strings_of items); now intros [= _ <-].
Qed.

Lemma write_results_frame (rs : list dict) :
  forall (st st' : state) (o : outcome unit),
    write_results rs st = (o, st') -> same_but_csv st st'.
Proof.
  induction rs as [|r rs IH]; intros st st' o H.
  - injection H as <- <-. unfold same_but_csv. tauto.
  - cbn [write_results] in H. unfold bind in H.
    destruct (flatten_row r st) as [[row|e] s1] eqn:E1;
      apply flatten_row_pure in E1; subst s1.
    + unfold writerow in H. destruct (wrong_fields row).
      * run. apply IH in H. unfold same_but_csv in *. fields. exact H.
      * injection H as <- <-. unfold same_but_csv. tauto.
    + injection H as <- <-. unfold same_but_csv. tauto.
Qed.

Lemma save_results_frame (st st' : state) (o : outcome unit) :
  save_results st = (o, st') -> same_but_csv st st'.
Proof.
  unfold save_results. destruct (results st) as [|r rs] eqn:E.
  - run. intros [= <- <-]. unfold same_but_csv. fields. tauto.
  - rewrite <- E. run. intros H.
    destruct (file_exists st); apply write_results_frame in H;
      unfold same_but_csv in *; destruct (output_csv st); fields; exact H.
Qed.

Lemma rate_limit_sleeps_backoff (l naps : list sleep_call) :
  Forall is_backoff naps ->
  rate_limit_sleeps (l ++ naps) = rate_limit_sleeps l.
Proof.
  intros H. unfold rate_limit_sleeps. rewrite flat_map_app.
  induction H as [|[] naps Hx _ IH]; cbn [flat_map]; [now rewrite app_nil_r| |];
    [exact IH|destruct Hx].
Qed.

Lemma process_file_inv (env : environment) (total idx : nat) (image : string)
    (processed : list pystr) (st st2 : state) (o : outcome (list pystr)) :
  process_file env total idx image processed st = (o, st2) ->
  exists (r : option dict) (st1 st3 : state) (o3 : outcome unit),
    analyze_invoice env image st = (Return r, st1)
    /\ same_store st st1
    /\ rate_limit_sleeps (sleeps st1) = rate_limit_sleeps (sleeps st)
    /\ (forall d, r = Some d -> d <> [])
    /\ save_results (saved env (ledger_after r image processed) (counted r st1))
       = (o3, st3)
    /\ match o3 with
       | Return _ =>
           o = Return (ledger_after r image processed)
           /\ st2 = paced total idx st3
       | Raise e => o = Raise e /\ st2 = st3
       end.
Proof.
  intros H.
  destruct (attempts_spec env image max_retries 0 st)
    as (r & st1 & calls & naps & Hrun & Hs & _ & _ & _ & Hnaps & Hback & Hne).
  fold (analyze_invoice env image) in Hrun.
  assert (Hrate : rate_limit_sleeps (sleeps st1)
                  = rate_limit_sleeps (sleeps st))
    by (rewrite Hnaps; now apply rate_limit_sleeps_backoff).
  exists r, st1.
  unfold process_file, bind at 1 in H. rewrite Hrun in H.
  unfold ledger_after, counted.
  destruct (truthy r); run; rewrite save_progress_eq in H;
    match type of H with
    | context [save_results ?s] =>
        destruct (save_results s) as [[[]|e] st3] eqn:E;
          [exists st3, (Return tt)|exists st3, (Raise e)]
    end;
    (split; [exact Hrun|]); (split; [exact Hs|]); (split; [exact Hrate|]);
    (split; [exact Hne|]);
    (split; [reflexivity|]);
    unfold paced; destruct (idx <? total); injection H as <- <-;
    split; reflexivity.
Qed.

Lemma counted_sleeps (r : option dict) (st : state) :
  sleeps (counted r st) = sleeps st.
Proof. unfold counted. now destruct (truthy r). Qed.

Lemma process_files_pauses (env : environment) (total : nat)
    (files : list string) :
  forall (idx : nat) (processed p : list pystr) (st st' : state),
    process_files env total idx files processed st = (Return p, st') ->
    idx + List.length files = S total ->
    rate_limit_sleeps (sleeps st')
    = rate_limit_sleeps (sleeps st)
      ++ repeat DELAY_BETWEEN_REQUESTS (List.length files - 1).
Proof.
  induction files as [|image rest IH]; intros idx processed p st st' H Hidx.
  - injection H as <- <-. cbn. now rewrite app_nil_r.
  - cbn [process_files] in H. unfold bind in H.
    destruct (process_file env total idx image processed st) as [o st2] eqn:E.
    destruct (process_file_inv _ _ _ _ _ _ _ _ E)
      as (r & st1 & st3 & o3 & _ & _ & Hrate & _ & Hsave & Ho).
    apply save_results_frame in Hsave.
    destruct Hsave as (_ & _ & _ & _ & _ & Hsl & _).
    unfold saved in Hsl. fields. rewrite counted_sleeps in Hsl.
    destruct o3 as [[]|e]; destruct Ho as [-> ->]; [|discriminate].
    cbn [List.length] in Hidx.
    destruct rest as [|image' rest'].
    + injection H as <- <-. unfold paced.
      replace (idx <? total) with false
        by (symmetry; apply Nat.ltb_ge; cbn in Hidx; lia).
      rewrite Hsl, Hrate. cbn. now rewrite app_nil_r.
    + apply IH in H; [|cbn [List.length] in *; lia].
      rewrite H. unfold paced.
      replace (idx <? total) with true
        by (symmetry; apply Nat.ltb_lt; cbn in Hidx; lia).
      fields. rewrite Hsl.
      unfold rate_limit_sleeps at 1. rewrite flat_map_app.
      fold (rate_limit_sleeps (sleeps st1)). rewrite Hrate.
      cbn [List.length Nat.sub repeat flat_map app].
      rewrite <- app_assoc, Nat.sub_0_r. reflexivity.
Qed.

Lemma load_progress_pure (st st' : state) (o : outcome (list pystr)) :
  load_progress st = (o, st') -> st' = st.
Proof.
  unfold load_progress. destruct (progress_file st); [|now intros [= _ <-]].
  destruct (loads _ s) as [[]|]; try (now intros [= _ <-]).
  destruct (dict_get "processed" members) as [[]|]; try (now intros [= _ <-]).
  destruct (strings_of items); now intros [= _ <-].
Qed.

(** The analysis of an item adds invocations for this item and back-off
    sleeps to the timeline, nothing else. *)
Lemma attempts_timeline (env : environment) (image : string)
    (remaining : nat) :
  forall (attempt_no : nat) (st st' : state) (o : outcome (option dict)),
    attempts env image attempt_no remaining st = (o, st') ->
    exists evs : list event,
      timeline st' = timeline st ++ evs
      /\ forallb (item_event image) evs = true.
Proof.
  induction remaining as [|n IH]; intros a st st' o H.
  - injection H as <- <-. exists []. now rewrite app_nil_r.
  - cbn [attempts] in H. rewrite attempt_eq in H.
    assert (Hstop : forall (x : outcome (option dict))
                      (l : list log_record),
               (x, with_log l (invoked image st)) = (o, st') ->
               exists evs : list event,
                 timeline st' = timeline st ++ evs
                 /\ forallb (item_event image) evs = true).
    { intros x l [= <- <-]. exists [Invocation image]. fields.
      cbn [forallb item_event]. now rewrite String.eqb_refl. }
    destruct (image_open env image).
    + destruct (reply_outcome image _) as [d|e].
      * injection H as <- <-. exists [Invocation image]. fields.
        cbn [forallb item_event]. now rewrite String.eqb_refl.
      * destruct e; run; fields; try (eapply Hstop; exact H).
        destruct (a <? max_retries - 1); [|eapply Hstop; exact H].
        apply IH in H. destruct H as (evs & Ht & Hall). revert Ht. fields.
        rewrite <- !app_assoc. intros Ht.
        eexists. split; [exact Ht|].
        cbn [app forallb item_event]. now rewrite String.eqb_refl.
    + run. injection H as <- <-. exists []. fields. now rewrite app_nil_r.
Qed.

Lemma counted_timeline (r : option dict) (st : state) :
  timeline (counted r st) = timeline st.
Proof. unfold counted. now destruct (truthy r). Qed.

(** The timeline of a loop that returns: item by item, the events of the
    analysis, the write of the ledger and, between two items, the pause. *)
Lemma process_files_timeline (env : environment) (total : nat)
    (files : list string) :
  forall (idx : nat) (processed p : list pystr) (st st' : state),
    process_files env total idx files processed st = (Return p, st') ->
    idx + List.length files = S total ->
    exists per_item : list (list event),
      Forall2 (fun image evs => forallb (item_event image) evs = true)
        files per_item
      /\ timeline st' = timeline st ++ run_events per_item.
Proof.
  induction files as [|image rest IH]; intros idx processed p st st' H Hidx.
  - injection H as <- <-. exists []. split; [constructor|].
    cbn [run_events]. now rewrite app_nil_r.
  - cbn [process_files] in H. unfold bind in H.
    destruct (process_file env total idx image processed st) as [o st2] eqn:E.
    destruct (process_file_inv _ _ _ _ _ _ _ _ E)
      as (r & st1 & st3 & o3 & Hrun & _ & _ & _ & Hsave & Ho).
    apply attempts_timeline in Hrun. destruct Hrun as (evs & Ht1 & Hevs).
    apply save_results_frame in Hsave.
    destruct Hsave as (_ & _ & _ & _ & _ & _ & _ & Ht3).
    unfold saved in Ht3. fields. rewrite counted_timeline, Ht1 in Ht3.
    destruct o3 as [[]|e]; destruct Ho as [-> ->]; [|discriminate].
    cbn [List.length] in Hidx.
    destruct rest as [|image' rest'].
    + injection H as <- <-. exists [evs]. split; [now repeat constructor|].
      unfold paced.
      replace (idx <? total) with false
        by (symmetry; apply Nat.ltb_ge; cbn in Hidx; lia).
      rewrite Ht3, <- app_assoc. reflexivity.
    + apply IH in H; [|cbn [List.length] in *; lia].
      destruct H as (per_item & Hall & Ht).
      exists (evs :: per_item). split; [now constructor|].
      rewrite Ht. unfold paced.
      replace (idx <? total) with true
        by (symmetry; apply Nat.ltb_lt; cbn in Hidx; lia).
      fields. rewrite Ht3, <- !app_assoc.
      inversion Hall; subst. reflexivity.
Qed.

(** C9.  In a run that returns, the calls to the outside follow the work set
    item by item: the events of the analysis of the item (invocations for
    this item and back-off sleeps, nothing else), the write of the ledger,
    and then, after each item except the last, one sleep of
    [DELAY_BETWEEN_REQUESTS] seconds; there is no pause before the first
    item and none after the last.  So the run pauses for rate limiting
    exactly [n - 1] times (truncated subtraction), [n] being the number of
    items in its work set, each time for [DELAY_BETWEEN_REQUESTS] seconds,
    which is [60 / REQUESTS_PER_MINUTE], that is 4. *)
Theorem rate_limit_delays (env : environment) (max_files : option Z)
    (st st' : state) :
  process_all env max_files st = (Return tt, st') ->
  (exists per_item : list (list event),
      Forall2 (fun image evs => forallb (item_event image) evs = true)
        (planned_files env max_files st) per_item
      /\ timeline st' = timeline st ++ run_events per_item)
  /\ rate_limit_sleeps (sleeps st')
     = rate_limit_sleeps (sleeps st)
       ++ repeat DELAY_BETWEEN_REQUESTS
            (List.length (planned_files env max_files st) - 1)
  /\ (DELAY_BETWEEN_REQUESTS == 60 / REQUESTS_PER_MINUTE)%Q
  /\ (DELAY_BETWEEN_REQUESTS == 4)%Q.
Proof.
  intros H.
  enough (Hrun : (exists per_item : list (list event),
                     Forall2 (fun image evs =>
                                forallb (item_event image) evs = true)
                       (planned_files env max_files st) per_item
                     /\ timeline st' = timeline st ++ run_events per_item)
                 /\ rate_limit_sleeps (sleeps st')
                    = rate_limit_sleeps (sleeps st)
                      ++ repeat DELAY_BETWEEN_REQUESTS
                           (List.length (planned_files env max_files st) - 1))
    by (destruct Hrun; repeat split; auto; reflexivity).
  unfold process_all, planned_files in *.
  destruct (image_files env) as [|f fs].
  - run. injection H as <-. fields. split.
    + exists []. split; [constructor|]. cbn. now rewrite app_nil_r.
    + cbn. now rewrite app_nil_r.
  - unfold bind in H.
    destruct (load_progress st) as [[processed|e] st0] eqn:El; [|discriminate].
    apply load_progress_pure in El. subst st0.
    destruct (process_files env _ 1 _ processed st) as [[p|e] st2] eqn:Ep;
      [|discriminate].
    injection H as <-. split.
    + eapply process_files_timeline; [exact Ep|reflexivity].
    + eapply process_files_pauses; [exact Ep|reflexivity].
Qed.

Lemma process_files_ledger (env : environment) (total : nat)
    (files : list string) :
  forall (idx : nat) (processed p : list pystr) (st st' : state),
    process_files env total idx files processed st = (Return p, st') ->
    failed_count st <= failed_count st'
    /\ (failed_count st' = failed_count st ->
        p = processed ++ map codes files)
    /\ (files <> [] ->
        exists stamp,
          progress_file st' = Some (dumps (ledger_document p stamp)))
    /\ (files = [] -> st' = st /\ p = processed).
Proof.
  induction files as [|image rest IH]; intros idx processed p st st' H.
  - injection H as <- <-. cbn [map]. rewrite app_nil_r.
    repeat split; auto; congruence.
  - cbn [process_files] in H. unfold bind in H.
    destruct (process_file env total idx image processed st) as [o st2] eqn:E.
    destruct (process_file_inv _ _ _ _ _ _ _ _ E)
      as (r & st1 & st3 & o3 & _ & Hs & _ & _ & Hsave & Ho).
    apply save_results_frame in Hsave.
    destruct Hsave as (_ & Hfc & _ & Hpf & _).
    destruct Hs as (_ & Hfc1 & _).
    unfold saved in Hfc, Hpf. fields.
    destruct o3 as [[]|e]; destruct Ho as [-> ->]; [|discriminate].
    apply IH in H. destruct H as (Hle & Heq & Hfile & Hnil).
    rewrite paced_failed_count, Hfc in Hle, Heq.
    unfold counted, ledger_after in *.
    destruct (truthy r); fields; rewrite Hfc1 in *.
    + repeat split; try lia; try discriminate.
      * intros Hsame. rewrite (Heq Hsame), <- app_assoc. reflexivity.
      * intros _. destruct rest as [|x rest']; [|apply Hfile; discriminate].
        destruct Hnil as [-> ->]; [reflexivity|].
        rewrite paced_progress_file, Hpf. eexists. reflexivity.
    + repeat split; try lia; try discriminate.
      intros _. destruct rest as [|x rest']; [|apply Hfile; discriminate].
      destruct Hnil as [-> ->]; [reflexivity|].
      rewrite paced_progress_file, Hpf. eexists. reflexivity.
Qed.

Lemma contains_app (a b : list pystr) (x : string) :
  contains (a ++ b) x = contains a x || contains b x.
Proof. unfold contains. apply existsb_app. Qed.

Lemma contains_filter (f : string -> bool) (l : list string) (x : string) :
  In x l -> f x = true -> contains (map codes (filter f l)) x = true.
Proof.
  intros Hin Hf. unfold contains. apply existsb_exists. exists (codes x).
  split; [apply in_map, filter_In; auto|apply str_eqb_refl].
Qed.

Lemma nothing_remains (images : list string) (processed : list pystr) :
  filter (not_in (processed ++ map codes (filter (not_in processed) images)))
    images
  = [].
Proof.
  assert (H : forall x,
            In x images ->
            not_in (processed
                    ++ map codes (filter (not_in processed) images)) x
            = false).
  { intros x Hx. unfold not_in at 1. rewrite contains_app.
    destruct (contains processed x) eqn:E; [reflexivity|].
    rewrite contains_filter; [reflexivity|exact Hx|].
    unfold not_in. now rewrite E. }
  revert H.
  generalize (not_in (processed
                      ++ map codes (filter (not_in processed) images))).
  intros f. induction images as [|y ys IH]; intros H; [reflexivity|].
  cbn [filter]. rewrite H by now left. apply IH.
  intros x Hx. apply H. now right.
Qed.

Lemma remaining_files_nil (processed : list pystr) (max_files : option Z)
    (images : list string) :
  filter (not_in processed) images = [] ->
  remaining_files images processed max_files = [].
Proof.
  intros H. unfold remaining_files, slice_list. rewrite H.
  destruct max_files as [m|]; [|reflexivity].
  destruct (m =? 0)%Z; [reflexivity|].
  destruct (0 <=? m)%Z; apply firstn_nil.
Qed.

Lemma load_progress_same_file (st st' : state) :
  progress_file st' = progress_file st ->
  fst (load_progress st') = fst (load_progress st).
Proof.
  intros H. unfold load_progress. rewrite H.
  destruct (progress_file st); [|reflexivity].
  destruct (loads _ s) as [[]|]; try reflexivity.
  destruct (dict_get "processed" members) as [[]|]; try reflexivity.
  destruct (strings_of items); reflexivity.
Qed.

(** C6, as amended.  When an uncapped run returns with no failed item, the next
    run over the same folder (with any cap) computes an empty work set,
    returns without invoking the capability and leaves both files as they
    are. *)
Theorem second_run_after_clean_run (env : environment) (st st1 : state)
    (max_files : option Z) :
  process_all env None (new_processor st) = (Return tt, st1) ->
  failed_count st1 = 0 ->
  planned_files env max_files (new_processor st1) = []
  /\ exists st2 : state,
       process_all env max_files (new_processor st1) = (Return tt, st2)
       /\ api_calls st2 = api_calls st1
       /\ progress_file st2 = progress_file st1
       /\ output_csv st2 = output_csv st1.
Proof.
  intros Hrun Hfailed. unfold process_all, planned_files in *.
  destruct (image_files env) as [|f fs] eqn:Eimg.
  - split; [reflexivity|]. run. eexists. split; [reflexivity|].
    fields. auto.
  - set (images := f :: fs) in *. unfold bind in Hrun.
    destruct (load_progress (new_processor st)) as [[processed|e] st0] eqn:El;
      [|discriminate].
    pose proof (load_progress_sound _ _ _ El) as Hsound.
    pose proof (load_progress_pure _ _ _ El) as ->.
    destruct (process_files env _ 1 _ processed (new_processor st))
      as [[p|e] st'] eqn:Ep; [|discriminate].
    injection Hrun as ->.
    apply process_files_ledger in Ep.
    destruct Ep as (_ & Heq & Hfile & Hnil).
    specialize (Heq Hfailed). unfold remaining_files in Heq, Hfile, Hnil.
    assert (Hload : load_progress (new_processor st1)
                    = (Return p, new_processor st1)
                    /\ filter (not_in p) images = []).
    { destruct (filter (not_in processed) images) as [|x xs] eqn:Erem.
      - destruct (Hnil eq_refl) as [-> ->]. split.
        + pose proof (load_progress_same_file (new_processor st)
                        (new_processor (new_processor st)) eq_refl) as Hl.
          rewrite El in Hl.
          destruct (load_progress (new_processor (new_processor st)))
            as [o s] eqn:El2.
          apply load_progress_pure in El2 as ->. cbn in Hl. now subst o.
        + exact Erem.
      - destruct Hfile as [stamp Hstamp]; [discriminate|]. split.
        + eapply load_saved; [|exact Hstamp].
          rewrite Heq, forallb_app, Hsound. apply sound_names.
        + rewrite Heq, <- Erem. apply nothing_remains. }
    destruct Hload as [Hload Hrem]. unfold bind. rewrite Hload.
    rewrite !(remaining_files_nil p max_files images Hrem).
    split; [reflexivity|].
    cbn [process_files]. run. eexists. split; [reflexivity|].
    fields. auto.
Qed.

(** *** Writable results are an invariant of a run *)

Lemma flatten_row_flat (r row : dict) (st st' : state) :
  flatten_row r st = (Return row, st') -> flat r = Some row.
Proof.
  unfold flatten_row, flat.
  destruct (dict_get "items_found" r) as [[]|];
    try destruct (strings_of items); intros [= <- _]; reflexivity.
Qed.

Lemma write_results_returns (rs : list dict) :
  forall (st st' : state),
    write_results rs st = (Return tt, st') ->
    Forall (fun r => writable r = true) rs.
Proof.
  induction rs as [|r rs IH]; intros st st' H; [constructor|].
  cbn [write_results] in H. unfold bind in H.
  destruct (flatten_row r st) as [[row|e] s1] eqn:E1; [|discriminate].
  apply flatten_row_flat in E1.
  unfold writerow in H. destruct (wrong_fields row) eqn:Ew; [|discriminate].
  run. constructor; [|eapply IH; exact H].
  unfold writable. now rewrite E1, Ew.
Qed.

Lemma save_results_returns (st st' : state) :
  save_results st = (Return tt, st') ->
  Forall (fun r => writable r = true) (results st).
Proof.
  unfold save_results. destruct (results st) as [|r rs] eqn:E; [constructor|].
  rewrite <- E. run. destruct (file_exists st); apply write_results_returns.
Qed.

(** Every state in which an iteration of a run ends has writable results. *)
Lemma process_files_keeps_writable (env : environment) (total : nat)
    (files : list string) :
  forall (idx : nat) (processed p : list pystr) (st st' : state),
    Forall (fun r => writable r = true) (results st) ->
    process_files env total idx files processed st = (Return p, st') ->
    Forall (fun r => writable r = true) (results st').
Proof.
  induction files as [|image rest IH]; intros idx processed p st st' Hw H.
  - now injection H as <- <-.
  - cbn [process_files] in H. unfold bind in H.
    destruct (process_file env total idx image processed st) as [o st2] eqn:E.
    destruct (process_file_inv _ _ _ _ _ _ _ _ E)
      as (r & st1 & st3 & o3 & _ & _ & _ & _ & Hsave & Ho).
    destruct o3 as [[]|e]; destruct Ho as [-> ->]; [|discriminate].
    eapply IH; [|exact H].
    rewrite paced_results.
    pose proof (save_results_frame _ _ _ Hsave) as (_ & _ & -> & _).
    now apply save_results_returns in Hsave.
Qed.

(** *** The result parser on fenced replies *)




(** What [json.loads] makes of escapes, long integers and deep nesting. *)
Lemma escapes_are_decoded :
  loads reply_depth Examples.escapes_payload
  = Decoded (JObject [(codes "seller",
                       JString (codes "caf" ++ [233; 32; 8364]%N));
                      (codes "client", JString [128512%N])]).
Proof. vm_compute. reflexivity. Qed.

Lemma long_integers_are_refused :
  loads reply_depth (Examples.integer_payload 4300)
  = Decoded (JObject [(codes "total_amount",
                       JNumber (Examples.copies 4300 "7"))])
  /\ loads reply_depth (Examples.integer_payload 4301) = Raises IntTooLong
  /\ analyze_invoice
       (Examples.constant_env (Reply (Examples.integer_payload 4301)))
       "a.png" initial_state
     = (Return None,
        with_log [ProcessingError "a.png"] (invoked "a.png" initial_state)).
Proof. repeat split; vm_compute; reflexivity. Qed.

Lemma deep_nesting_is_refused :
  (exists v, loads reply_depth (Examples.nested_payload 992) = Decoded v)
  /\ loads reply_depth (Examples.nested_payload 993) = Raises TooDeep
  /\ analyze_invoice
       (Examples.constant_env (Reply (Examples.nested_payload 993)))
       "a.png" initial_state
     = (Return None,
        with_log [ProcessingError "a.png"] (invoked "a.png" initial_state)).
Proof.
  split; [|split; vm_compute; reflexivity].
  destruct (loads reply_depth (Examples.nested_payload 992)) as [v|f] eqn:E;
    [now exists v|vm_compute in E; discriminate].
Qed.

(** *** The ledger file *)

(** C3, as amended.  [save_progress] truncates the ledger and rewrites it in
    place with the full list just given and the current time stamp.  Once it
    has returned, the file decodes back to exactly that list; while it runs,
    the file holds a prefix of the new text. *)
Theorem save_progress_rewrites_in_place (env : environment)
    (processed : list string) (st : state) :
  let names := map codes processed in
  let text := progress_text env names st in
  text = dumps (ledger_document names (now_isoformat env (ticks st)))
  /\ (exists st',
        save_progress env names st = (Return tt, st')
        /\ progress_file st' = Some text
        /\ load_progress st' = (Return names, st'))
  /\ (forall written,
        progress_file (save_progress_interrupted env names written st)
        = Some (substring 0 written text)
        /\ prefix (substring 0 written text) text = true)
  /\ progress_file
       (save_progress_interrupted env names (String.length text) st)
     = Some text.
Proof.
  intros names text. split; [reflexivity|]. split; [|split].
  - exists (saved env names st). split; [reflexivity|].
    split; [reflexivity|].
    eapply load_saved; [apply sound_names|reflexivity].
  - intros written. split; [reflexivity|apply substring_prefix].
  - unfold save_progress_interrupted. fold text.
    now rewrite substring_all.
Qed.

(** C3, counterexample: after a run the ledger is valid; a save interrupted
    right after the file was opened for writing leaves it empty, and one
    interrupted after 20 characters leaves an unfinished document; neither
    decodes, and the next [load_progress] raises. *)
Lemma interrupted_save_leaves_invalid_ledger :
  let st := snd (process_all Examples.env_ok None initial_state) in
  let names := map codes ["a.png"; "b.JPG"]%string in
  let cut0 := save_progress_interrupted Examples.env_ok names 0 st in
  let cut20 := save_progress_interrupted Examples.env_ok names 20 st in
  fst (load_progress st) = Return names
  /\ progress_file cut0 = Some EmptyString
  /\ loads ledger_depth EmptyString = Raises Malformed
  /\ fst (load_progress cut0) = Raise (JSONDecodeError EmptyString)
  /\ option_map String.length (progress_file cut20) = Some 20
  /\ option_map (loads ledger_depth) (progress_file cut20)
     = Some (Raises Malformed).
Proof.
  vm_compute. repeat split.
Qed.

(** *** Runs on the sample folder *)

(** Every successful iteration appends the rows of all the results
    accumulated so far, not only the row of its own item. *)
Lemma successful_iteration_appends_all (env : environment) (total idx : nat)
    (image : string) (processed : list pystr) (st st1 : state)
    (data : dict) :
  analyze_invoice env image st = (Return (Some data), st1) ->
  Forall (fun r => writable r = true) (results st ++ [data]) ->
  exists st2,
    process_file env total idx image processed st
    = (Return (processed ++ [codes image]), st2)
    /\ results st2 = results st ++ [data]
    /\ output_csv st2
       = Some (match output_csv st with
               | Some (r :: rows) => r :: rows
               | _ => [HeaderRow fieldnames]
               end ++ rows_of (results st ++ [data])).
Proof.
  intros Ha Hw.
  destruct (attempts_spec env image max_retries 0 st)
    as (r & st' & calls & naps & Hrun & Hs & _ & _ & _ & _ & _ & Hne).
  fold (analyze_invoice env image) in Hrun. rewrite Ha in Hrun.
  injection Hrun as <- <-. destruct Hs as (_ & _ & Hres & _ & Hcsv & _).
  rewrite <- Hres in Hw.
  eexists. split; [apply (process_file_succeeded _ _ _ _ _ _ _ _ Ha);
                   [now apply Hne|exact Hw]|].
  split; [through; now rewrite Hres|].
  rewrite paced_output_csv. unfold stored, saved. fields.
  rewrite Hres, Hcsv. now destruct (results st).
Qed.

(** C1.  Two items, both analysed with success, starting from an empty output
    folder: the result file gets one header and three data rows, the row of
    the first item twice, since every [save_results] appends all the results
    accumulated so far. *)
Theorem result_rows_are_repeated :
  let run := process_all Examples.env_ok None initial_state in
  fst run = Return tt
  /\ processed_count (snd run) = 2
  /\ failed_count (snd run) = 0
  /\ header_rows (output_csv (snd run)) = 1
  /\ data_rows (output_csv (snd run)) = 3
  /\ data_rows_for "a.png" (output_csv (snd run)) = 2
  /\ data_rows_for "b.JPG" (output_csv (snd run)) = 1.
Proof. vm_compute. repeat split; reflexivity. Qed.

(** The cap of [process_all] when it is positive: the first [m] items of the
    ordered work set; without a cap, all of it. *)
Lemma remaining_files_cap (images : list string) (processed : list pystr) (m : Z) :
  (0 < m)%Z ->
  remaining_files images processed (Some m)
  = firstn (Z.to_nat m) (filter (not_in processed) images)
  /\ remaining_files images processed None
     = filter (not_in processed) images.
Proof.
  intros Hm. unfold remaining_files, slice_list.
  destruct (Z.eqb_spec m 0); [lia|].
  destruct (Z.leb_spec 0 m); [|lia]. auto.
Qed.

(** C7.  With [max_files = 0] the work set is not cut down to its first 0
    items: the test [if max_files:] fails and every remaining item is
    processed. *)
Theorem zero_cap_processes_everything :
  (forall (images : list string) (processed : list pystr),
     remaining_files images processed (Some 0%Z)
     = filter (not_in processed) images)
  /\ planned_files Examples.env_ok (Some 0%Z) initial_state
     = ["a.png"; "b.JPG"]%string
  /\ api_calls (snd (process_all Examples.env_ok (Some 0%Z) initial_state))
     = ["a.png"; "b.JPG"]%string.
Proof.
  split; [|split].
  - intros images processed. reflexivity.
  - vm_compute. reflexivity.
  - vm_compute. reflexivity.
Qed.

(** C6, counterexample: the first run returns normally but both items fail to
    parse; the second run over the unchanged folder plans both items again
    and invokes the capability for them. *)
Lemma failed_items_are_processed_again :
  let run1 := process_all Examples.env_malformed None initial_state in
  let run2 := process_all Examples.env_malformed None
                (new_processor (snd run1)) in
  fst run1 = Return tt
  /\ failed_count (snd run1) = 2
  /\ planned_files Examples.env_malformed None (new_processor (snd run1))
     = ["a.png"; "b.JPG"]%string
  /\ api_calls (snd run2) = ["a.png"; "b.JPG"; "a.png"; "b.JPG"]%string.
Proof. vm_compute. repeat split; reflexivity. Qed.


(** *** The theorems at sample inputs *)


Lemma retry_bound_witness :
  exists st',
    process_files Examples.env_quota 2 1 ["a.png"; "b.JPG"]%string []
      initial_state = (Return [], st')
    /\ results st' = results initial_state
    /\ failed_count st' = 2
    /\ processed_count st' = 0
    /\ api_calls st'
       = ["a.png"; "a.png"; "a.png"; "b.JPG"; "b.JPG"; "b.JPG"]%string.
Proof.
  apply (proj2 (retry_bound Examples.env_quota)).
  - intros k image. exists None. reflexivity.
  - reflexivity.
  - constructor.
Defined.

Lemma failed_item_left_for_next_run_witness :
  exists (st1 st2 : state) (stamp : string),
    analyze_invoice Examples.env_malformed "a.png" initial_state
    = (Return None, st1)
    /\ (exists (l : list log_record) (last : log_record),
           log st1 = l ++ [last]
           /\ failure_record MalformedOutput "a.png" last)
    /\ process_file Examples.env_malformed 2 1 "a.png" [] initial_state
       = (Return [], st2)
    /\ failed_count st2 = 1
    /\ processed_count st2 = 0
    /\ results st2 = []
    /\ progress_file st2 = Some (dumps (ledger_document [] stamp))
    /\ (forallb sound [] = true -> load_progress st2 = (Return [], st2))
    /\ process_files Examples.env_malformed 2 1 ["a.png"; "b.JPG"]%string []
         initial_state
       = process_files Examples.env_malformed 2 2 ["b.JPG"]%string [] st2.
Proof.
  apply (proj2 (failed_item_left_for_next_run Examples.env_malformed 2 1
                  "a.png" ["b.JPG"]%string [] initial_state
                  (Forall_nil _))
           MalformedOutput).
  apply (fails_malformed Examples.env_malformed "a.png" 0 0
           "The image is unreadable."); vm_compute; reflexivity.
Defined.

Lemma extra_field_aborts_run_witness :
  exists e st2,
    process_files Examples.env_extra 2 1 ["a.png"; "b.JPG"]%string []
      initial_state = (Raise e, st2)
    /\ (e = ValueError \/ e = TypeError)
    /\ failed_count st2 = 0
    /\ api_calls st2 = ["a.png"]%string
    /\ load_progress st2 = (Return [codes "a.png"], st2).
Proof.
  apply (extra_field_aborts_run Examples.env_extra 2 1 "a.png"
           ["b.JPG"]%string [] initial_state
           (snd (analyze_invoice Examples.env_extra "a.png" initial_state))
           [(codes "invoice_number", JString "INV-7");
            (codes "currency", JString "EUR");
            (codes "invoice_file", JString "a.png")]).
  - constructor.
  - vm_compute. reflexivity.
  - vm_compute. discriminate.
Defined.

Lemma rate_limit_delays_witness :
  timeline (snd (process_all Examples.env_ok None initial_state))
  = [Invocation "a.png"; LedgerSave; pause; Invocation "b.JPG"; LedgerSave]
  /\ (exists per_item : list (list event),
        Forall2 (fun image evs => forallb (item_event image) evs = true)
          ["a.png"; "b.JPG"]%string per_item
        /\ timeline (snd (process_all Examples.env_ok None initial_state))
           = run_events per_item)
  /\ rate_limit_sleeps
       (sleeps (snd (process_all Examples.env_ok None initial_state)))
     = [DELAY_BETWEEN_REQUESTS]
  /\ (DELAY_BETWEEN_REQUESTS == 60 / REQUESTS_PER_MINUTE)%Q
  /\ (DELAY_BETWEEN_REQUESTS == 4)%Q.
Proof.
  split; [vm_compute; reflexivity|].
  apply (rate_limit_delays Examples.env_ok None initial_state
           (snd (process_all Examples.env_ok None initial_state))).
  vm_compute. reflexivity.
Defined.

Lemma second_run_after_clean_run_witness :
  planned_files Examples.env_ok None
    (new_processor (snd (process_all Examples.env_ok None initial_state)))
  = []
  /\ exists st2,
       process_all Examples.env_ok None
         (new_processor (snd (process_all Examples.env_ok None initial_state)))
       = (Return tt, st2)
       /\ api_calls st2 = ["a.png"; "b.JPG"]%string
       /\ progress_file st2
          = progress_file (snd (process_all Examples.env_ok None initial_state))
       /\ output_csv st2
          = output_csv (snd (process_all Examples.env_ok None initial_state)).
Proof.
  apply (second_run_after_clean_run Examples.env_ok initial_state
           (snd (process_all Examples.env_ok None initial_state)) None);
    vm_compute; reflexivity.
Defined.

End InvoiceFacts.
